(** * Two Keras notebooks: the MovieLens recommender and the IMDB classifier

    A shallow embedding of [collaborative_filtering_movielens.ipynb] and
    [bidirectional_lstm_imdb.ipynb].  Tensors are lists (rank 1) and lists
    of rows (rank 2) of real numbers: the arithmetic of the notebooks is
    modelled over the reals, with the rounding of float32 in [Float32]
    where a property depends on it; embedding tables are lists of rows,
    the Python dictionaries of the index-mapping cell are finite maps and
    the Python sets of the recommendation cell are finite sets. *)

From Stdlib Require Import Reals Lra Lia List Permutation Factorial Sorted.
From stdpp Require Import base option list gmap strings.

#[local] Open Scope R_scope.

(** ** Tensors and the framework primitives the notebooks call *)

Module Tensor.

Abbreviation vec := (list R) (only parsing).
Abbreviation mat := (list (list R)) (only parsing).

(** [tf.nn.sigmoid]: the logistic function, applied to each entry.  The
    tensors hold real numbers here; the rounding of the float32 kernels is
    the subject of [Float32] below, and only bounds and orders that rounding
    keeps (closed bounds, non-strict orders) carry over to it. *)
Definition sigmoid (x : R) : R := 1 / (1 + exp (- x)).

Definition sigmoid2 (x : mat) : mat := map (map sigmoid) x.

(** The sum of the entries.  Over the real numbers the order of the terms
    is immaterial; in float32 it is not. *)
Definition sum_list (l : list R) : R := fold_right Rplus 0 l.

(** The dot product of two rows. *)
Definition dot (a b : vec) : R := sum_list (zip_with Rmult a b).

(** [tf.tensordot(a, b, 2)] on two rank-2 tensors of the same shape: with
    [axes = 2] the last two axes of [a] are contracted with the first two
    of [b], so the result is the scalar [sum_i sum_j a[i][j] * b[i][j]]. *)
Definition tensordot2 (a b : mat) : R := sum_list (zip_with dot a b).

(** Broadcasting additions: a scalar plus a tensor of shape (B, 1), and
    two tensors of the same shape. *)
Definition add_scalar (s : R) (x : mat) : mat := map (map (Rplus s)) x.
Definition add2 (x y : mat) : mat := zip_with (zip_with Rplus) x y.

(** [ndarray.flatten] of a rank-2 array. *)
Definition flatten (x : mat) : vec := concat x.

(** The shape test of a rank-2 tensor. *)
Definition has_shape (rows cols : nat) (x : mat) : Prop :=
  length x = rows /\ Forall (fun r => length r = cols) x.

End Tensor.

Import Tensor.

(** ** The recommender: [RecommenderNet] *)

Module Recommender.

(** The four weight tables the constructor creates.  A bias table is an
    [Embedding(n, 1)], hence a table whose rows have one entry. *)
Record RecommenderNet : Type := mkNet {
  num_users : nat;
  num_movies : nat;
  embedding_size : nat;
  user_embedding : mat;
  user_bias : mat;
  movie_embedding : mat;
  movie_bias : mat
}.

(** The shapes [__init__] gives the tables. *)
Definition wf_net (net : RecommenderNet) : Prop :=
  has_shape (num_users net) (embedding_size net) (user_embedding net) /\
  has_shape (num_users net) 1 (user_bias net) /\
  has_shape (num_movies net) (embedding_size net) (movie_embedding net) /\
  has_shape (num_movies net) 1 (movie_bias net).

(** A layer call reads the model and may raise (an index outside its
    table); the model it ran on is threaded through, so that what a call
    does to the tables is part of its result. *)
Definition Call (A : Type) : Type :=
  RecommenderNet -> option A * RecommenderNet.

#[global] Instance call_ret : MRet Call :=
  fun A (a : A) net => (Some a, net).

#[global] Instance call_bind : MBind Call :=
  fun A B (k : A -> Call B) (c : Call A) net =>
    match c net with
    | (Some a, net') => k a net'
    | (None, net') => (None, net')
    end.

(** An [Embedding] layer applied to a vector of indices: row [i] of the
    result is row [ids[i]] of the layer's table. *)
Definition embedding (table : RecommenderNet -> mat) (ids : list nat)
  : Call mat :=
  fun net => (mapM (fun i => table net !! i) ids, net).

(** [RecommenderNet.call]; [inputs] is the (B, 2) array of index pairs,
    [inputs[:, 0]] its first column and [inputs[:, 1]] its second. *)
Definition call (inputs : list (nat * nat)) : Call mat :=
  user_vector ← embedding user_embedding (map fst inputs);
  user_bias ← embedding user_bias (map fst inputs);
  movie_vector ← embedding movie_embedding (map snd inputs);
  movie_bias ← embedding movie_bias (map snd inputs);
  let dot_user_movie := tensordot2 user_vector movie_vector in
  let x := add2 (add_scalar dot_user_movie user_bias) movie_bias in
  mret (sigmoid2 x).

(** The scalar entry of a (1, 1) tensor. *)
Definition scalar_of (x : mat) : option R :=
  match x with
  | [[s]] => Some s
  | _ => None
  end.

(** The match score of one pair: the forward evaluation on the one-row
    input [[u, m]]. *)
Definition score (net : RecommenderNet) (u m : nat) : option R :=
  fst (call [(u, m)] net) ≫= scalar_of.

(** Row [i] of a table, and the entry of row [i] of a bias table. *)
Definition row (table : mat) (i : nat) : vec := nth i table [].
Definition entry (table : mat) (i : nat) : R := nth 0 (row table i) 0.

(** An error raised inside a layer call. *)
Definition raise {A} : Call A := fun net => (None, net).

(** [Model.predict] with its default [batch_size = 32]: the input rows
    are cut into consecutive batches, [call] runs on each batch and the
    results are concatenated; on an array of no rows [predict] raises
    ([ValueError]). *)
Fixpoint batches_fuel {A} (fuel size : nat) (l : list A) : list (list A) :=
  match fuel with
  | O => []
  | S fuel' =>
      match l with
      | [] => []
      | _ => take size l :: batches_fuel fuel' size (drop size l)
      end
  end.

Definition batches {A} (size : nat) (l : list A) : list (list A) :=
  batches_fuel (length l) size l.

Fixpoint predict_batches (bs : list (list (nat * nat))) : Call mat :=
  match bs with
  | [] => mret []
  | b :: bs' =>
      y ← call b;
      ys ← predict_batches bs';
      mret (y ++ ys)
  end.

Definition predict (x : list (nat * nat)) : Call mat :=
  match x with
  | [] => raise
  | _ => predict_batches (batches 32 x)
  end.

(** *** Storage order of the tables

    A reordering of a table is given by the list [p] of the old row
    numbers in their new order: new row [k] is old row [p[k]], and old
    row [i] is found at position [new_index p i]. *)
Definition permute_table (p : list nat) (table : mat) : mat :=
  map (row table) p.

Fixpoint new_index (p : list nat) (i : nat) : nat :=
  match p with
  | [] => O
  | j :: p' => if Nat.eqb j i then O else S (new_index p' i)
  end.

Definition permute_net (pu pm : list nat) (net : RecommenderNet)
  : RecommenderNet :=
  {| num_users := num_users net;
     num_movies := num_movies net;
     embedding_size := embedding_size net;
     user_embedding := permute_table pu (user_embedding net);
     user_bias := permute_table pu (user_bias net);
     movie_embedding := permute_table pm (movie_embedding net);
     movie_bias := permute_table pm (movie_bias net) |}.

(** *** The training objective *)

(** Modelled from the spec: the loss [tf.keras.losses.BinaryCrossentropy]
    that [model.compile] names is the framework's and no code of it is in
    the repository; this is the binary cross-entropy of one example with
    target [t] and predicted score [p], without the clipping of [p] the
    framework adds. *)
Definition binary_crossentropy (t p : R) : R :=
  - (t * ln p + (1 - t) * ln (1 - p)).

End Recommender.

(** ** The forward evaluation in float32 *)

Module Float32.

Import Recommender.

(** The greatest integer not above [x]. *)
Definition floor (x : R) : Z := (up x - 1)%Z.

(** The exponent of [x] in binary32: that of its binade, and -126 for
    the subnormal numbers. *)
Definition exponent (x : R) : Z :=
  Z.max (floor (ln (Rabs x) / ln 2)) (-126).

(** The distance between neighbouring binary32 numbers at [x]: 24 bits of
    precision. *)
Definition ulp (x : R) : R := powerRZ 2 (exponent x - 23).

(** The nearest integer, a tie going to the even one. *)
Definition nearest_even (y : R) : Z :=
  if Rlt_dec (y - IZR (floor y)) (1 / 2) then floor y
  else if Rlt_dec (1 / 2) (y - IZR (floor y)) then (floor y + 1)%Z
  else if Z.even (floor y) then floor y else (floor y + 1)%Z.

(** Rounding to the nearest binary32 number.  Overflow, infinities and
    NaN are not modelled: the result is meant for arguments inside the
    range of the format. *)
Definition round32 (x : R) : R :=
  if Req_dec_T x 0 then 0 else IZR (nearest_even (x / ulp x)) * ulp x.

(** The float32 operations: the exact result, rounded.  [tf.nn.sigmoid] on
    float32 is taken as the logistic function rounded to the nearest
    binary32 number. *)
Definition f32_add (a b : R) : R := round32 (a + b).
Definition f32_mul (a b : R) : R := round32 (a * b).
Definition sigmoid32 (x : R) : R := round32 (sigmoid x).

(** The dot product of two rows in float32, the products added from the
    first entry on. *)
Definition dot32 (a b : list R) : R :=
  fold_left (fun acc ab => f32_add acc (f32_mul ab.1 ab.2)) (zip a b) 0.

(** The match score of one pair as the float32 code computes it: the
    forward evaluation on the one-row input [[u, m]], every operation
    rounded. *)
Definition score32 (net : RecommenderNet) (u m : nat) : option R :=
  user_vector ← user_embedding net !! u;
  user_bias ← user_bias net !! u;
  movie_vector ← movie_embedding net !! m;
  movie_bias ← movie_bias net !! m;
  match user_bias, movie_bias with
  | [bu], [bm] =>
      Some (sigmoid32 (f32_add (f32_add (dot32 user_vector movie_vector) bu)
                               bm))
  | _, _ => None
  end.

(** The largest finite binary32 number. *)
Definition max_float : R := (2 - / 2 ^ 23) * 2 ^ 127.

(** The intermediate results of [dot32] in the order computed: each
    product, then the sum it is added to. *)
Fixpoint dot32_trace (acc : R) (ab : list (R * R)) : list R :=
  match ab with
  | [] => []
  | p :: ab' =>
      let acc' := f32_add acc (f32_mul p.1 p.2) in
      f32_mul p.1 p.2 :: acc' :: dot32_trace acc' ab'
  end.

(** The evaluation of [score32] stays inside the format: no product and
    no sum in it is larger in magnitude than [max_float], so that no
    infinity and no NaN arises in the float32 code. *)
Definition in_range (net : RecommenderNet) (u m : nat) : Prop :=
  match user_embedding net !! u, user_bias net !! u,
        movie_embedding net !! m, movie_bias net !! m with
  | Some user_vector, Some [bu], Some movie_vector, Some [bm] =>
      Forall (fun x => Rabs x <= max_float)
             (dot32_trace 0 (zip user_vector movie_vector)
              ++ [f32_add (dot32 user_vector movie_vector) bu;
                  f32_add (f32_add (dot32 user_vector movie_vector) bu) bm])
  | _, _, _, _ => True
  end.

End Float32.

(** ** The data-preparation cells of the recommender notebook *)

Module Ratings.

(** A row of [ratings.csv]. *)
Record Rating : Type := mkRating {
  userId : Z;
  movieId : Z;
  rating : R;
  timestamp : Z
}.

(** A row of [movies.csv]. *)
Record Movie : Type := mkMovie {
  movie_movieId : Z;
  title : string;
  genres : string
}.

(** [Series.unique().tolist()]: the distinct values in order of first
    appearance. *)
Fixpoint unique_from (seen : list Z) (l : list Z) : list Z :=
  match l with
  | [] => []
  | x :: l' =>
      if decide (x ∈ seen) then unique_from seen l'
      else x :: unique_from (x :: seen) l'
  end.

Definition unique (l : list Z) : list Z := unique_from [] l.

(** [{x: i for i, x in enumerate(ids)}] and
    [{i: x for i, x in enumerate(ids)}]: the pairs are inserted from left
    to right, a later pair overwriting an earlier one with its key. *)
Definition encode_dict (ids : list Z) : gmap Z nat :=
  fold_left (fun d ix => <[ix.2 := ix.1]> d) (zip (seq 0 (length ids)) ids) ∅.

Definition decode_dict (ids : list Z) : gmap nat Z :=
  fold_left (fun d ix => <[ix.1 := ix.2]> d) (zip (seq 0 (length ids)) ids) ∅.

(** The index-mapping cell, as functions of the ratings table. *)
Definition user_ids (df : list Rating) : list Z := unique (map userId df).
Definition movie_ids (df : list Rating) : list Z := unique (map movieId df).

Definition user2user_encoded (df : list Rating) : gmap Z nat :=
  encode_dict (user_ids df).
Definition userencoded2user (df : list Rating) : gmap nat Z :=
  decode_dict (user_ids df).
Definition movie2movie_encoded (df : list Rating) : gmap Z nat :=
  encode_dict (movie_ids df).
Definition movie_encoded2movie (df : list Rating) : gmap nat Z :=
  decode_dict (movie_ids df).

(** [num_users = len(user2user_encoded)] and
    [num_movies = len(movie_encoded2movie)]. *)
Definition num_users (df : list Rating) : nat := size (user2user_encoded df).
Definition num_movies (df : list Rating) : nat :=
  size (movie_encoded2movie df).

(** Python's [min] and [max] of a sequence; [None] stands for the
    [ValueError] of an empty one. *)
Definition py_min (l : list R) : option R :=
  match l with
  | [] => None
  | x :: l' => Some (fold_left Rmin l' x)
  end.

Definition py_max (l : list R) : option R :=
  match l with
  | [] => None
  | x :: l' => Some (fold_left Rmax l' x)
  end.

(** The lambda of the target column:
    [(x - min_rating) / (max_rating - min_rating)].  When all ratings are
    equal Python raises on the division by zero, where the quotient is 0
    here: the properties of the targets assume [min_rating < max_rating]. *)
Definition normalize (min_rating max_rating x : R) : R :=
  (x - min_rating) / (max_rating - min_rating).

Section Prepare.

(** [df.sample(frac=1, random_state=42)]: the framework's shuffle of
    the rows. *)
Variable sample : list Rating -> list Rating.

(** The target column [y], from the ratings table as read. *)
Definition y (df : list Rating) : option (list R) :=
  min_rating ← py_min (map rating df);
  max_rating ← py_max (map rating df);
  Some (map (fun r => normalize min_rating max_rating (rating r))
            (sample df)).

End Prepare.

End Ratings.

(** ** The recommendation cell *)

Module Recommend.

Import Recommender Ratings.

Section Stage.

(** [ndarray.argsort]: numpy's routine, a function of the array. *)
Variable argsort : list R -> list nat.

(** [df[df.userId == user_id]]; the cell filters the shuffled table, and
    only which movie ids occur in the result is used afterwards. *)
Definition movies_watched_by_user (df : list Rating) (user_id : Z)
  : list Rating :=
  filter (fun r => userId r = user_id) df.

(** [movie_df[~movie_df["movieId"].isin(watched.movieId.values)]["movieId"]]. *)
Definition not_watched_column (movie_df : list Movie)
    (watched : list Rating) : list Z :=
  map movie_movieId
    (filter (fun mv => movie_movieId mv ∉ map movieId watched) movie_df).

(** [list(set(movies_not_watched).intersection(
          set(movie2movie_encoded.keys())))]:
    the candidate movie ids, in the order the set lists them.  The order
    is that of [gset] here and that of Python's hash table in the
    notebook: what is proved of the candidates does not depend on it. *)
Definition candidate_ids (movie2movie_encoded : gmap Z nat)
    (column : list Z) : list Z :=
  elements ((list_to_set column : gset Z) ∩ dom movie2movie_encoded).

(** [[[movie2movie_encoded.get(x)] for x in movies_not_watched]]; [get]
    gives [None] for a key the dictionary lacks. *)
Definition movies_not_watched (movie2movie_encoded : gmap Z nat)
    (ids : list Z) : list (option nat) :=
  map (fun x => movie2movie_encoded !! x) ids.

(** [np.hstack(([[user_encoder]] * len(movies_not_watched),
               movies_not_watched))];
    the array is one of index pairs only when no [get] gave [None]. *)
Definition user_movie_array (user_encoder : option nat)
    (not_watched : list (option nat)) : option (list (nat * nat)) :=
  u ← user_encoder;
  ms ← mapM (fun e => e) not_watched;
  Some (map (pair u) ms).

(** [model.predict(user_movie_array).flatten()]. *)
Definition ratings (net : RecommenderNet) (pairs : list (nat * nat))
  : option (list R) :=
  flatten <$> fst (predict pairs net).

(** [ratings.argsort()[-10:][::-1]]. *)
Definition top_ratings_indices (scores : list R) : list nat :=
  reverse (drop (length (argsort scores) - 10) (argsort scores)).

(** [[movie_encoded2movie.get(movies_not_watched[x][0])
      for x in top_ratings_indices]];
    the outer [None] stands for the [IndexError] of a position outside
    the list. *)
Definition recommended_movie_ids (movie_encoded2movie : gmap nat Z)
    (not_watched : list (option nat)) (top : list nat)
  : option (list (option Z)) :=
  mapM (fun x => (fun e => e ≫= (movie_encoded2movie !!.))
                   <$> not_watched !! x) top.

(** What one run of the notebook holds when the cell starts; [user_id]
    is the id [df.userId.sample(5).iloc[0]] drew. *)
Record Session : Type := mkSession {
  df : list Rating;
  movie_df : list Movie;
  model : RecommenderNet;
  user_id : Z
}.

Definition session_ids (s : Session) : list Z :=
  candidate_ids (movie2movie_encoded (df s))
    (not_watched_column (movie_df s)
       (movies_watched_by_user (df s) (user_id s))).

Definition session_not_watched (s : Session) : list (option nat) :=
  movies_not_watched (movie2movie_encoded (df s)) (session_ids s).

Definition session_pairs (s : Session) : option (list (nat * nat)) :=
  user_movie_array (user2user_encoded (df s) !! user_id s)
    (session_not_watched s).

(** The whole cell: the ranking and the recommended movie ids. *)
Definition session_top (s : Session) : option (list nat) :=
  pairs ← session_pairs s;
  scores ← ratings (model s) pairs;
  Some (top_ratings_indices scores).

Definition recommend (s : Session) : option (list (option Z)) :=
  top ← session_top s;
  recommended_movie_ids (movie_encoded2movie (df s))
    (session_not_watched s) top.

(** A movie the user of the session has no rating for, and a movie
    with a dense index below [num_movies]. *)
Definition unrated (s : Session) (x : Z) : Prop :=
  forall r : Rating, r ∈ df s -> userId r = user_id s -> movieId r ≠ x.

Definition indexed (s : Session) (x : Z) : Prop :=
  exists i : nat,
    movie2movie_encoded (df s) !! x = Some i /\
    (i < Ratings.num_movies (df s))%nat.

End Stage.

End Recommend.

(** ** The sentiment classifier of the second notebook *)

Module Sentiment.

Definition max_features : nat := 20 * 1000.
Definition maxlen : nat := 200.

(** [keras.preprocessing.sequence.pad_sequences(x, maxlen=maxlen)] on one
    sequence, with the defaults [padding="pre"], [truncating="pre"] and
    [value=0]: a longer sequence keeps its last [maxlen] tokens, a shorter
    one is filled with zeros in front.  This is the library for [maxlen]
    of 1 or more (the notebook's is 200); at [maxlen = 0] the library
    raises. *)
Definition pad_sequence (maxlen : nat) (s : list nat) : list nat :=
  if decide (maxlen ≤ length s)%nat
  then drop (length s - maxlen) s
  else replicate (maxlen - length s) O ++ s.

Definition pad_sequences (maxlen : nat) (x : list (list nat))
  : list (list nat) :=
  map (pad_sequence maxlen) x.

Definition vadd (a b : vec) : vec := zip_with Rplus a b.
Definition vmul (a b : vec) : vec := zip_with Rmult a b.

(** The product [x · W] of a row vector with a matrix of [n] columns,
    given by its rows. *)
Definition vecmat (n : nat) (x : vec) (W : mat) : vec :=
  fold_right (fun xw acc => vadd (map (Rmult xw.1) xw.2) acc)
             (replicate n 0) (zip x W).

(** A [Dense] layer on the last axis: [activation(x · kernel + bias)]. *)
Definition dense (units : nat) (activation : R -> R)
    (kernel : mat) (bias : vec) (x : vec) : vec :=
  map activation (vadd (vecmat units x kernel) bias).

Definition linear (x : R) : R := x.

(** The weights of one [LSTM] layer. *)
Record LSTMWeights : Type := mkLSTM {
  lstm_kernel : mat;
  lstm_recurrent_kernel : mat;
  lstm_bias : vec
}.

(** One step of the framework's LSTM cell, on the state [(h, c)]: the
    gates are the four slices of [x · kernel + h · recurrent_kernel + bias],
    with activation [tanh] and recurrent activation [sigmoid]. *)
Definition lstm_step (units : nat) (w : LSTMWeights)
    (st : vec * vec) (x : vec) : vec * vec :=
  let z := vadd (vadd (vecmat (4 * units) x (lstm_kernel w))
                      (vecmat (4 * units) st.1 (lstm_recurrent_kernel w)))
                (lstm_bias w) in
  let i := map sigmoid (take units z) in
  let f := map sigmoid (take units (drop units z)) in
  let g := map tanh (take units (drop (2 * units) z)) in
  let o := map sigmoid (take units (drop (3 * units) z)) in
  let c := vadd (vmul f st.2) (vmul i g) in
  (vmul o (map tanh c), c).

(** [LSTM(units, return_sequences=True)]: the hidden state after every
    position of the sequence. *)
Fixpoint lstm_from (units : nat) (w : LSTMWeights) (st : vec * vec)
    (xs : list vec) : list vec :=
  match xs with
  | [] => []
  | x :: xs' =>
      let st' := lstm_step units w st x in
      st'.1 :: lstm_from units w st' xs'
  end.

Definition lstm (units : nat) (w : LSTMWeights) (xs : list vec) : list vec :=
  lstm_from units w (replicate units 0, replicate units 0) xs.

(** [Bidirectional(LSTM(units, return_sequences=True))] with the default
    [merge_mode="concat"]: the backward layer reads the sequence from its
    end, its outputs are put back in the order of the input and joined,
    position by position, to those of the forward layer. *)
Definition bidirectional (units : nat) (fw bw : LSTMWeights)
    (xs : list vec) : list vec :=
  zip_with app (lstm units fw xs) (reverse (lstm units bw (reverse xs))).

(** The trainable weights of the model. *)
Record Weights : Type := mkWeights {
  embeddings : mat;
  forward_layer : LSTMWeights;
  backward_layer : LSTMWeights;
  dense_kernel : mat;
  dense_bias : vec;
  outputs_kernel : mat;
  outputs_bias : vec
}.

(** The shapes the layer declarations give the weights: the embedding
    table, the two LSTM layers of 64 units on 128 features, and the two
    [Dense] layers. *)
Definition wf_lstm (input_dim units : nat) (l : LSTMWeights) : Prop :=
  has_shape input_dim (4 * units) (lstm_kernel l) /\
  has_shape units (4 * units) (lstm_recurrent_kernel l) /\
  length (lstm_bias l) = (4 * units)%nat.

Definition wf_weights (w : Weights) : Prop :=
  has_shape max_features 128 (embeddings w) /\
  wf_lstm 128 64 (forward_layer w) /\
  wf_lstm 128 64 (backward_layer w) /\
  has_shape 128 64 (dense_kernel w) /\
  length (dense_bias w) = 64%nat /\
  has_shape 64 1 (outputs_kernel w) /\
  length (outputs_bias w) = 1%nat.

(** The model on one input sequence: [Embedding(max_features, 128)], the
    bidirectional LSTM, [Dense(64, activation="linear")] and
    [Dense(1, activation="sigmoid")]; the last three act on every
    position of the sequence.  On a sequence of no positions the
    recurrent layer raises. *)
Definition model (w : Weights) (inputs : list nat) : option (list vec) :=
  x ← mapM (fun i => embeddings w !! i) inputs;
  x ← match x with
      | [] => None
      | _ => Some (bidirectional 64 (forward_layer w) (backward_layer w) x)
      end;
  let y := map (dense 64 linear (dense_kernel w) (dense_bias w)) x in
  Some (map (dense 1 sigmoid (outputs_kernel w) (outputs_bias w)) y).

End Sentiment.

(** ** Concrete models and tables used in the examples below *)

Module Examples.

Import Recommender Ratings.


(** One user and one movie whose vectors and biases are all zero. *)
Definition net_zero : RecommenderNet :=
  mkNet 1 1 2 [[0; 0]] [[0]] [[0; 0]] [[0]].

(** Two users and two movies. *)
Definition net_2x2 : RecommenderNet :=
  mkNet 2 2 1 [[1]; [2]] [[0]; [1]] [[3]; [4]] [[0]; [5]].

(** Weights of the sentiment model that are all zero. *)
Definition zero_lstm : Sentiment.LSTMWeights :=
  Sentiment.mkLSTM (replicate 128 (replicate 256 0))
                   (replicate 64 (replicate 256 0))
                   (replicate 256 0).

Definition zero_weights : Sentiment.Weights :=
  Sentiment.mkWeights
    (replicate Sentiment.max_features (replicate 128 0))
    zero_lstm zero_lstm
    (replicate 128 (replicate 64 0)) (replicate 64 0)
    (replicate 64 (replicate 1 0)) (replicate 1 0).

(** A ratings table of three rows. *)
Definition df_3 : list Rating :=
  [mkRating 7 10 4 0; mkRating 7 20 1 1; mkRating 9 10 5 2].

(** A movie table with one movie nobody rated. *)
Definition movie_df_3 : list Movie :=
  [mkMovie 10 "Heat" "Crime"; mkMovie 20 "Antz" "Comedy";
   mkMovie 30 "Fargo" "Drama"].

(** The session of user 9. *)
Definition session_9 : Recommend.Session :=
  Recommend.mkSession df_3 movie_df_3 net_2x2 9.

(** An [argsort] for the examples: the positions of the array, sorted by
    insertion on the values they hold. *)
Fixpoint insert_by (key : nat -> R) (i : nat) (l : list nat) : list nat :=
  match l with
  | [] => [i]
  | j :: l' =>
      if Rle_dec (key i) (key j) then i :: j :: l'
      else j :: insert_by key i l'
  end.

Definition insertion_argsort (scores : list R) : list nat :=
  fold_right (insert_by (fun i => nth i scores 0)) []
             (seq 0 (length scores)).

End Examples.

(** ** The training data of the recommender notebook *)

Module Training.

Import Ratings.

(** [EMBEDDING_SIZE = 50]. *)
Definition EMBEDDING_SIZE : nat := 50.

(** [model = RecommenderNet(num_users, num_movies, EMBEDDING_SIZE)]: a model
    whose tables have the shapes the constructor declares for the counts of
    the ratings table; the entries of the tables are drawn at random and
    then trained, and are left open. *)
Definition built_for (df : list Rating) (net : Recommender.RecommenderNet)
  : Prop :=
  Recommender.wf_net net /\
  Recommender.num_users net = num_users df /\
  Recommender.num_movies net = num_movies df /\
  Recommender.embedding_size net = EMBEDDING_SIZE.

(** A row [(u, m)] of an input array whose two indices lie inside the
    tables of [net]. *)
Definition valid_pair (net : Recommender.RecommenderNet) (p : nat * nat)
  : Prop :=
  (p.1 < Recommender.num_users net)%nat /\
  (p.2 < Recommender.num_movies net)%nat.

Section Split.

(** [df.sample(frac=1, random_state=42)]. *)
Variable sample : list Rating -> list Rating.

(** [df["user"] = df["userId"].map(user2user_encoded)], the same for the
    movies, and, after the shuffle, [x = df[["user", "movie"]].values];
    [map] leaves [None] (NaN) where the dictionary lacks the key. *)
Definition x (df : list Rating) : list (option nat * option nat) :=
  map (fun r => (user2user_encoded df !! userId r,
                 movie2movie_encoded df !! movieId r))
      (sample df).

(** [train_indices = int(0.9 * df.shape[0])]: the double nearest to 0.9 is
    a little above 9/10, and for the row counts a table can have the
    product rounds to a double whose integer part is that of [9 * n / 10]. *)
Definition train_indices (df : list Rating) : nat :=
  (9 * length (sample df)) / 10.

(** [x[:train_indices]], [x[train_indices:]], [y[:train_indices]] and
    [y[train_indices:]]. *)
Definition x_train (df : list Rating) : list (option nat * option nat) :=
  take (train_indices df) (x df).

Definition x_val (df : list Rating) : list (option nat * option nat) :=
  drop (train_indices df) (x df).

Definition y_train (df : list Rating) : option (list R) :=
  take (train_indices df) <$> y sample df.

Definition y_val (df : list Rating) : option (list R) :=
  drop (train_indices df) <$> y sample df.

End Split.

End Training.

(** ** What the recommendation cell asks of [argsort] *)

Module Ranking.

(** The positions in [idx] are in ascending order of the scores they
    point at. *)
Definition ascending (scores : list R) (idx : list nat) : Prop :=
  forall (i j a b : nat),
    (i <= j)%nat -> idx !! i = Some a -> idx !! j = Some b ->
    nth a scores 0 <= nth b scores 0.

(** [argsort] lists every position of the array once. *)
Definition lists_positions (argsort : list R -> list nat) : Prop :=
  forall scores : list R,
    Permutation (argsort scores) (seq 0 (length scores)).

(** [argsort] lists every position once, in ascending order of the
    scores. *)
Definition sorts (argsort : list R -> list nat) : Prop :=
  lists_positions argsort /\
  forall scores : list R, ascending scores (argsort scores).

End Ranking.

(** ** Further models and sessions used in the examples below *)

Module MoreExamples.

Import Recommender Ratings.

(** A model of the shapes the notebook builds for the table [df_3]: two
    users, two movies, vectors of 50 entries. *)
Definition net_50 : RecommenderNet :=
  mkNet 2 2 50
        (replicate 2 (replicate 50 (1 / 10))) [[0]; [1]]
        (replicate 2 (replicate 50 (1 / 5))) [[0]; [5]].

(** The session of user 9 with that model, and a session for a user id
    no row of the table carries. *)
Definition session_50 : Recommend.Session :=
  Recommend.mkSession Examples.df_3 Examples.movie_df_3 net_50 9.

Definition session_absent : Recommend.Session :=
  Recommend.mkSession Examples.df_3 Examples.movie_df_3 net_50 5.

(** The session of user 7, who has rated every movie the table knows. *)
Definition session_7 : Recommend.Session :=
  Recommend.mkSession Examples.df_3 Examples.movie_df_3 net_50 7.

(** One user and one movie with the vectors [10] and [10]. *)
Definition net_10 : RecommenderNet :=
  mkNet 1 1 1 [[10]] [[0]] [[10]] [[0]].

(** Two users and two movies; the vectors and biases of user 0 and of
    movie 0 are zero. *)
Definition net_zero_row : RecommenderNet :=
  mkNet 2 2 1 [[0]; [1]] [[0]; [0]] [[0]; [1]] [[0]; [0]].

End MoreExamples.

(** * Properties *)

(** ** The logistic function *)

Lemma sigmoid_range (x : R) : 0 < sigmoid x < 1.
Proof.
  unfold sigmoid.
  pose proof (exp_pos (- x)) as Hpos.
  split.
  - apply Rdiv_lt_0_compat; lra.
  - apply (Rmult_lt_reg_r (1 + exp (- x))); [lra|].
    unfold Rdiv. rewrite Rmult_assoc, Rinv_l by lra. lra.
Qed.

Lemma sigmoid_0 : sigmoid 0 = 1 / 2.
Proof. unfold sigmoid. rewrite Ropp_0, exp_0. lra. Qed.

(** ** Bounds on [exp (-3)] from the alternating series of [exp (-1/2)] *)

Lemma half_term_decreasing :
  Un_decreasing (fun i : nat => / INR (fact i) * (1 / 2) ^ i).
Proof.
  intros n.
  rewrite fact_simpl, mult_INR.
  pose proof (INR_fact_lt_0 n) as Hf.
  assert (Hn : 1 <= INR (S n)) by (rewrite S_INR; pose proof (pos_INR n); lra).
  assert (Hp : 0 < (1 / 2) ^ n) by (apply pow_lt; lra).
  rewrite Rinv_mult. cbn [pow].
  assert (Hi : 0 < / INR (fact n)) by (apply Rinv_0_lt_compat; exact Hf).
  assert (Hs : / INR (S n) <= 1).
  { rewrite <- Rinv_1. apply Rinv_le_contravar; lra. }
  assert (Hs0 : 0 < / INR (S n)) by (apply Rinv_0_lt_compat; lra).
  assert (Hap : 0 < / INR (fact n) * (1 / 2) ^ n)
    by (apply Rmult_lt_0_compat; assumption).
  replace (/ INR (S n) * / INR (fact n) * (1 / 2 * (1 / 2) ^ n))
    with (/ INR (S n) * (1 / 2) * (/ INR (fact n) * (1 / 2) ^ n)) by ring.
  nra.
Qed.

Lemma half_term_cv : Un_cv (fun i : nat => / INR (fact i) * (1 / 2) ^ i) 0.
Proof.
  intros eps Heps.
  destruct (cv_speed_pow_fact (1 / 2) eps Heps) as [N HN].
  exists N. intros n Hn. specialize (HN n Hn).
  cbv beta. replace (/ INR (fact n) * (1 / 2) ^ n)
    with ((1 / 2) ^ n / INR (fact n)) by (unfold Rdiv; ring).
  exact HN.
Qed.

Lemma half_series_cv :
  Un_cv (fun N =>
           sum_f_R0 (tg_alt (fun i : nat => / INR (fact i) * (1 / 2) ^ i)) N)
        (exp (- (1 / 2))).
Proof.
  intros eps Heps.
  destruct (E1_cvg (- (1 / 2)) eps Heps) as [N HN].
  exists N. intros n Hn. specialize (HN n Hn).
  replace (sum_f_R0 (tg_alt (fun i : nat => / INR (fact i) * (1 / 2) ^ i)) n)
    with (E1 (- (1 / 2)) n); [exact HN|].
  unfold E1. apply sum_eq. intros i _. unfold tg_alt.
  replace (- (1 / 2)) with (-1 * (1 / 2)) by lra.
  rewrite Rpow_mult_distr. ring.
Qed.

Lemma INR_fact_eq (k : nat) (z : Z) :
  Z.of_nat (fact k) = z -> INR (fact k) = IZR z.
Proof. intros <-. apply INR_IZR_INZ. Qed.

Lemma exp_neg_half_bounds : 60653 / 100000 < exp (- (1 / 2)) < 60654 / 100000.
Proof.
  pose proof (alternated_series_ineq _ (exp (- (1 / 2))) 3
                half_term_decreasing half_term_cv half_series_cv) as [Hlo Hhi].
  cbn [sum_f_R0 Nat.mul Nat.add] in Hlo, Hhi.
  unfold tg_alt in Hlo, Hhi.
  rewrite (INR_fact_eq 0 1), (INR_fact_eq 1 1), (INR_fact_eq 2 2),
    (INR_fact_eq 3 6), (INR_fact_eq 4 24), (INR_fact_eq 5 120),
    (INR_fact_eq 6 720) in Hlo, Hhi by reflexivity.
  rewrite (INR_fact_eq 7 5040) in Hlo by reflexivity.
  cbn [pow] in Hlo, Hhi.
  split; lra.
Qed.

Lemma exp_neg_3_bounds :
  49786 / 1000000 < exp (Ropp 3) < 49792 / 1000000.
Proof.
  replace (Ropp 3) with (- (1 / 2) + (- (1 / 2) + (- (1 / 2) +
                     (- (1 / 2) + (- (1 / 2) + - (1 / 2)))))) by lra.
  rewrite !exp_plus.
  destruct exp_neg_half_bounds as [Hlo Hhi].
  set (h := exp (- (1 / 2))) in *.
  clearbody h.
  assert (H2 : (60653 / 100000) ^ 2 < h * h < (60654 / 100000) ^ 2)
    by (cbn [pow]; split; nra).
  replace (h * (h * (h * (h * (h * h))))) with (h * h * (h * h * (h * h)))
    by ring.
  set (h2 := h * h) in *. clearbody h2.
  assert (H4 : (60653 / 100000) ^ 4 < h2 * h2 < (60654 / 100000) ^ 4)
    by (cbn [pow] in *; split; nra).
  set (h4 := h2 * h2) in *. clearbody h4.
  destruct H2 as [H2l H2h], H4 as [H4l H4h].
  split.
  - apply Rlt_trans with ((60653 / 100000) ^ 2 * (60653 / 100000) ^ 4).
    + cbn [pow]. lra.
    + apply Rmult_le_0_lt_compat; cbn [pow] in *; lra.
  - apply Rlt_trans with ((60654 / 100000) ^ 2 * (60654 / 100000) ^ 4).
    + apply Rmult_le_0_lt_compat; cbn [pow] in *; lra.
    + cbn [pow]. lra.
Qed.


(** ** Table lookups *)

Lemma lookup_row (table : mat) (i : nat) :
  (i < length table)%nat -> table !! i = Some (Recommender.row table i).
Proof.
  intros Hi. unfold Recommender.row.
  destruct (lookup_lt_is_Some_2 table i Hi) as [r Hr].
  rewrite Hr. f_equal. symmetry. by apply nth_lookup_Some.
Qed.

Lemma bias_row (n : nat) (table : mat) (i : nat) :
  has_shape n 1 table -> (i < n)%nat ->
  Recommender.row table i = [Recommender.entry table i].
Proof.
  intros [Hlen Hrows] Hi. unfold Recommender.entry.
  assert (Hin : table !! i = Some (Recommender.row table i))
    by (apply lookup_row; lia).
  rewrite Forall_lookup in Hrows. specialize (Hrows _ _ Hin).
  destruct (Recommender.row table i) as [|b [|??]]; simpl in *; try lia.
  reflexivity.
Qed.

Module RecommenderFacts.

Import Recommender.

(** Unfold one forward evaluation, and split on the outcome of each table
    lookup in it. *)
Ltac unfold_call :=
  unfold call, embedding, mbind, call_bind, mret, call_ret.

Ltac case_lookups :=
  repeat (match goal with
          | |- context [mapM ?f ?l] => destruct (mapM f l)
          end; simpl).

(** The forward evaluation never changes the model it runs on. *)
Lemma call_pure (inputs : list (nat * nat)) (net : RecommenderNet) :
  (call inputs net).2 = net.
Proof. unfold_call. case_lookups; reflexivity. Qed.

(** The forward evaluation on the one-row input [[u, m]]. *)
Lemma call_one_row (net : RecommenderNet) (u m : nat) :
  wf_net net -> (u < num_users net)%nat -> (m < num_movies net)%nat ->
  call [(u, m)] net =
    (Some [[sigmoid (dot (row (user_embedding net) u)
                         (row (movie_embedding net) m)
                     + entry (user_bias net) u
                     + entry (movie_bias net) m)]], net).
Proof.
  intros (HU & HUb & HM & HMb) Hu Hm.
  unfold_call. simpl.
  rewrite !lookup_row by (first [apply HU|apply HUb|apply HM|apply HMb]
                          || (destruct HU, HUb, HM, HMb; lia)).
  simpl.
  rewrite (bias_row _ _ _ HUb Hu), (bias_row _ _ _ HMb Hm). simpl.
  unfold tensordot2, sum_list. simpl.
  rewrite Rplus_0_r. reflexivity.
Qed.

(** On an input of several rows the contraction of [tensordot] runs over
    the rows as well: every row of the result carries the sum of the dot
    products of all rows of the batch. *)
Lemma call_two_rows :
  (call [(0%nat, 0%nat); (1%nat, 1%nat)] Examples.net_2x2).1 =
    Some [[sigmoid (11 + 0 + 0)]; [sigmoid (11 + 1 + 5)]].
Proof.
  unfold_call. simpl.
  unfold tensordot2, dot, sum_list. simpl.
  repeat f_equal; lra.
Qed.

(** Whatever the input, every entry [call] returns is a value of
    [sigmoid], hence strictly between 0 and 1. *)
Lemma call_entries_range (inputs : list (nat * nat)) (net : RecommenderNet)
    (out : list (list R)) :
  (call inputs net).1 = Some out ->
  Forall (Forall (fun s => 0 < s < 1)) out.
Proof.
  unfold_call. case_lookups; try discriminate.
  intros [= <-]. unfold sigmoid2.
  apply Forall_fmap, Forall_forall. intros r _. simpl.
  apply Forall_fmap, Forall_forall. intros x _. simpl.
  apply sigmoid_range.
Qed.

Lemma score_one_row (net : RecommenderNet) (u m : nat) :
  wf_net net -> (u < num_users net)%nat -> (m < num_movies net)%nat ->
  score net u m =
    Some (sigmoid (dot (row (user_embedding net) u)
                       (row (movie_embedding net) m)
                   + entry (user_bias net) u
                   + entry (movie_bias net) m)).
Proof.
  intros Hwf Hu Hm. unfold score.
  rewrite (call_one_row net u m Hwf Hu Hm). reflexivity.
Qed.

Lemma dot_zero_l (a b : list R) : Forall (fun x => x = 0) a -> dot a b = 0.
Proof.
  unfold dot, sum_list. intros Ha. revert b.
  induction Ha as [|x a Hx _ IH]; intros [|y b]; simpl; try reflexivity.
  rewrite IH, Hx. lra.
Qed.

(** A pair evaluated alone: on the one-row input [(u, m)] with both
    indices in range, [call] returns [sigmoid(user_vec[u] . movie_vec[m] +
    user_bias[u] + movie_bias[m])], and the model it hands back has the
    four tables it was given. *)
Theorem call_returns_sigmoid_and_keeps_tables
    (net : RecommenderNet) (u m : nat) :
  wf_net net -> (u < num_users net)%nat -> (m < num_movies net)%nat ->
  (call [(u, m)] net).1 =
    Some [[sigmoid (dot (row (user_embedding net) u)
                        (row (movie_embedding net) m)
                    + entry (user_bias net) u
                    + entry (movie_bias net) m)]] /\
  user_embedding (call [(u, m)] net).2 = user_embedding net /\
  user_bias (call [(u, m)] net).2 = user_bias net /\
  movie_embedding (call [(u, m)] net).2 = movie_embedding net /\
  movie_bias (call [(u, m)] net).2 = movie_bias net.
Proof.
  intros Hwf Hu Hm.
  rewrite call_pure, (call_one_row net u m Hwf Hu Hm). simpl.
  repeat split; reflexivity.
Qed.

Lemma wf_net_2x2 : wf_net Examples.net_2x2.
Proof. repeat split; simpl; repeat constructor. Qed.

Lemma call_returns_sigmoid_witness :
  (call [(1%nat, 0%nat)] Examples.net_2x2).1 =
    Some [[sigmoid (dot [2] [3] + 1 + 0)]] /\
  user_embedding (call [(1%nat, 0%nat)] Examples.net_2x2).2 = [[1]; [2]] /\
  user_bias (call [(1%nat, 0%nat)] Examples.net_2x2).2 = [[0]; [1]] /\
  movie_embedding (call [(1%nat, 0%nat)] Examples.net_2x2).2 = [[3]; [4]] /\
  movie_bias (call [(1%nat, 0%nat)] Examples.net_2x2).2 = [[0]; [5]].
Proof.
  apply (call_returns_sigmoid_and_keeps_tables Examples.net_2x2 1 0).
  - exact wf_net_2x2.
  - simpl. lia.
  - simpl. lia.
Defined.

(** A pair evaluated alone: when the user vector and the movie vector
    are both the zero vector and both biases are 0, the score is 1/2. *)
Theorem score_of_zero_vectors_is_half (net : RecommenderNet) (u m : nat) :
  wf_net net -> (u < num_users net)%nat -> (m < num_movies net)%nat ->
  Forall (fun x => x = 0) (row (user_embedding net) u) ->
  Forall (fun x => x = 0) (row (movie_embedding net) m) ->
  entry (user_bias net) u = 0 ->
  entry (movie_bias net) m = 0 ->
  score net u m = Some (1 / 2).
Proof.
  intros Hwf Hu Hm Hzu _ Hbu Hbm.
  rewrite (score_one_row net u m Hwf Hu Hm).
  rewrite (dot_zero_l _ _ Hzu), Hbu, Hbm.
  rewrite !Rplus_0_r, sigmoid_0. reflexivity.
Qed.

Lemma wf_net_zero : wf_net Examples.net_zero.
Proof. repeat split; simpl; repeat constructor. Qed.

Lemma score_of_zero_vectors_is_half_witness :
  score Examples.net_zero 0 0 = Some (1 / 2).
Proof.
  apply (score_of_zero_vectors_is_half Examples.net_zero 0 0).
  - exact wf_net_zero.
  - simpl. lia.
  - simpl. lia.
  - simpl. repeat constructor.
  - simpl. repeat constructor.
  - reflexivity.
  - reflexivity.
Defined.




(** *** Reordering the tables *)

Lemma new_index_lookup (p : list nat) (i : nat) :
  i ∈ p -> p !! new_index p i = Some i.
Proof.
  induction p as [|j p IH]; simpl; intros Hin.
  - by apply elem_of_nil in Hin.
  - destruct (Nat.eqb_spec j i) as [->|Hne]; [reflexivity|].
    simpl. apply IH. apply elem_of_cons in Hin as [->|Hin]; done.
Qed.

Lemma perm_elem (n : nat) (p : list nat) (i : nat) :
  Permutation p (seq 0 n) -> (i < n)%nat -> i ∈ p.
Proof.
  intros Hp Hi. rewrite Hp. apply elem_of_seq. lia.
Qed.

Lemma perm_bound (n : nat) (p : list nat) (j : nat) :
  Permutation p (seq 0 n) -> j ∈ p -> (j < n)%nat.
Proof.
  intros Hp Hj. rewrite Hp in Hj. apply elem_of_seq in Hj. lia.
Qed.

Lemma new_index_lt (n : nat) (p : list nat) (i : nat) :
  Permutation p (seq 0 n) -> (i < n)%nat -> (new_index p i < n)%nat.
Proof.
  intros Hp Hi.
  pose proof (new_index_lookup p i (perm_elem n p i Hp Hi)) as Hl.
  apply lookup_lt_Some in Hl.
  rewrite (Permutation_length Hp), length_seq in Hl. exact Hl.
Qed.

Lemma permute_table_row (n : nat) (p : list nat) (table : list (list R))
    (i : nat) :
  Permutation p (seq 0 n) -> (i < n)%nat ->
  row (permute_table p table) (new_index p i) = row table i.
Proof.
  intros Hp Hi. unfold row at 1, permute_table.
  rewrite nth_lookup, list_lookup_fmap.
  rewrite (new_index_lookup p i (perm_elem n p i Hp Hi)). reflexivity.
Qed.

Lemma permute_table_shape (n c : nat) (p : list nat)
    (table : list (list R)) :
  Permutation p (seq 0 n) -> has_shape n c table ->
  has_shape n c (permute_table p table).
Proof.
  intros Hp [Hlen Hrows]. split.
  - unfold permute_table.
    rewrite length_map, (Permutation_length Hp), length_seq. reflexivity.
  - unfold permute_table. apply Forall_fmap, Forall_forall.
    intros j Hj. simpl.
    pose proof (perm_bound n p j Hp Hj) as Hjn.
    rewrite Forall_lookup in Hrows.
    apply (Hrows j). apply lookup_row. lia.
Qed.

Lemma permute_net_wf (pu pm : list nat) (net : RecommenderNet) :
  Permutation pu (seq 0 (num_users net)) ->
  Permutation pm (seq 0 (num_movies net)) ->
  wf_net net -> wf_net (permute_net pu pm net).
Proof.
  intros Hpu Hpm (HU & HUb & HM & HMb).
  split; [|split; [|split]]; simpl; apply permute_table_shape; assumption.
Qed.

(** C5: reorder the user rows (vectors and biases alike) and the movie
    rows (vectors and biases alike); the score read at the new positions
    of [u] and [m] is the score the original tables give at [(u, m)]. *)
Theorem score_invariant_under_row_permutation
    (pu pm : list nat) (net : RecommenderNet) (u m : nat) :
  wf_net net ->
  Permutation pu (seq 0 (num_users net)) ->
  Permutation pm (seq 0 (num_movies net)) ->
  (u < num_users net)%nat -> (m < num_movies net)%nat ->
  score (permute_net pu pm net) (new_index pu u) (new_index pm m)
  = score net u m.
Proof.
  intros Hwf Hpu Hpm Hu Hm.
  rewrite (score_one_row net u m Hwf Hu Hm).
  rewrite (score_one_row (permute_net pu pm net)).
  - unfold entry. simpl.
    rewrite !(permute_table_row _ pu _ u Hpu Hu).
    rewrite !(permute_table_row _ pm _ m Hpm Hm). reflexivity.
  - apply permute_net_wf; assumption.
  - simpl. apply new_index_lt; assumption.
  - simpl. apply new_index_lt; assumption.
Qed.

Lemma score_invariant_under_row_permutation_witness :
  score (permute_net [1%nat; 0%nat] [1%nat; 0%nat] Examples.net_2x2)
        (new_index [1%nat; 0%nat] 0) (new_index [1%nat; 0%nat] 1)
  = score Examples.net_2x2 0 1.
Proof.
  apply (score_invariant_under_row_permutation
           [1%nat; 0%nat] [1%nat; 0%nat] Examples.net_2x2 0 1).
  - exact wf_net_2x2.
  - simpl. apply perm_swap.
  - simpl. apply perm_swap.
  - simpl. lia.
  - simpl. lia.
Defined.

End RecommenderFacts.

(** ** The forward evaluation in float32 *)

Module Float32Facts.

Import Recommender Float32.

Lemma floor_bounds (x : R) : IZR (floor x) <= x < IZR (floor x) + 1.
Proof.
  unfold floor. rewrite minus_IZR.
  destruct (archimed x) as [H1 H2]. lra.
Qed.

Lemma floor_unique (x : R) (n : Z) :
  IZR n <= x < IZR n + 1 -> floor x = n.
Proof.
  intros [Hlo Hhi]. unfold floor.
  rewrite <- (tech_up x (n + 1)); [lia| |]; rewrite plus_IZR; lra.
Qed.

Lemma floor_IZR (n : Z) : floor (IZR n) = n.
Proof. apply floor_unique. lra. Qed.

Lemma nearest_even_IZR (n : Z) : nearest_even (IZR n) = n.
Proof.
  unfold nearest_even. rewrite floor_IZR.
  destruct (Rlt_dec (IZR n - IZR n) (1 / 2)); [reflexivity|lra].
Qed.

Lemma ln_2_pos : 0 < ln 2.
Proof. rewrite <- ln_1. apply ln_increasing; lra. Qed.

Lemma exponent_in_binade (x : R) (e : Z) :
  (-126 <= e)%Z -> powerRZ 2 e <= x < powerRZ 2 (e + 1) -> exponent x = e.
Proof.
  intros He [Hlo Hhi]. unfold exponent.
  assert (H2 : 0 < powerRZ 2 e) by (apply powerRZ_lt; lra).
  rewrite Rabs_pos_eq by lra.
  rewrite (floor_unique _ e); [lia|].
  pose proof ln_2_pos as Hl2.
  assert (Hle : IZR e * ln 2 <= ln x).
  { rewrite <- (ln_exp (IZR e * ln 2)).
    destruct Hlo as [Hlo|Heq].
    - left. apply ln_increasing; [apply exp_pos|].
      replace (exp (IZR e * ln 2)) with (powerRZ 2 e); [exact Hlo|].
      rewrite powerRZ_Rpower by lra. reflexivity.
    - right. f_equal. rewrite <- Heq, powerRZ_Rpower by lra. reflexivity. }
  assert (Hlt : ln x < (IZR e + 1) * ln 2).
  { rewrite <- (ln_exp ((IZR e + 1) * ln 2)).
    apply ln_increasing; [lra|].
    replace (exp ((IZR e + 1) * ln 2)) with (powerRZ 2 (e + 1));
      [exact Hhi|].
    rewrite powerRZ_Rpower, plus_IZR by lra. reflexivity. }
  split.
  - apply (Rmult_le_reg_r (ln 2)); [exact Hl2|].
    unfold Rdiv. rewrite Rmult_assoc, Rinv_l by lra. lra.
  - apply (Rmult_lt_reg_r (ln 2)); [exact Hl2|].
    unfold Rdiv. rewrite Rmult_assoc, Rinv_l by lra. lra.
Qed.

Lemma round32_100 : round32 100 = 100.
Proof.
  unfold round32. destruct (Req_dec_T 100 0) as [H|_]; [lra|].
  unfold ulp. rewrite (exponent_in_binade 100 6); [|lia|simpl; lra].
  replace (100 / powerRZ 2 (6 - 23)) with (IZR 13107200)
    by (simpl; lra).
  rewrite nearest_even_IZR. simpl. lra.
Qed.

Lemma exp_neg_100_small : exp (Ropp 100) < / 2 ^ 32.
Proof.
  apply Rlt_trans with (exp (Ropp 24)); [apply exp_increasing; lra|].
  replace (Ropp 24)
    with (Ropp 3 + (Ropp 3 + (Ropp 3 + (Ropp 3 +
         (Ropp 3 + (Ropp 3 + (Ropp 3 + Ropp 3))))))) by lra.
  rewrite !exp_plus.
  destruct exp_neg_3_bounds as [Hlo Hhi].
  set (e := exp (Ropp 3)) in *. clearbody e.
  replace (e * (e * (e * (e * (e * (e * (e * e))))))) with (e ^ 8)
    by (cbn [pow]; ring).
  apply Rle_lt_trans with ((49792 / 1000000) ^ 8).
  - apply pow_incr. lra.
  - cbn [pow]. lra.
Qed.

Lemma sigmoid_100_near_1 : 1 - / 2 ^ 32 < sigmoid 100 < 1.
Proof.
  split; [|apply sigmoid_range].
  unfold sigmoid. pose proof exp_neg_100_small as He.
  pose proof (exp_pos (Ropp 100)) as Hp.
  set (e := exp (Ropp 100)) in *. clearbody e.
  assert (H1 : 1 / (1 + e) * (1 + e) = 1) by (field; lra).
  apply (Rmult_lt_reg_r (1 + e)); [lra|]. rewrite H1.
  assert (0 < / 2 ^ 32) by (apply Rinv_0_lt_compat, pow_lt; lra).
  nra.
Qed.

Lemma round32_saturates (s : R) : 1 - / 2 ^ 25 < s < 1 -> round32 s = 1.
Proof.
  intros [Hlo Hhi].
  assert (H25 : / 2 ^ 25 = 1 / 33554432) by (cbn [pow]; lra).
  rewrite H25 in Hlo.
  unfold round32. destruct (Req_dec_T s 0) as [H|_]; [lra|].
  unfold ulp. rewrite (exponent_in_binade s (-1)); [|lia|simpl; lra].
  replace (s / powerRZ 2 (-1 - 23)) with (s * 16777216) by (simpl; lra).
  unfold nearest_even.
  rewrite (floor_unique (s * 16777216) 16777215) by lra.
  destruct (Rlt_dec (s * 16777216 - 16777215) (1 / 2)) as [H|_]; [lra|].
  destruct (Rlt_dec (1 / 2) (s * 16777216 - 16777215)) as [_|H]; [|lra].
  change (16777215 + 1)%Z with 16777216%Z.
  change (powerRZ 2 (-1 - 23)) with (/ 2 ^ 24). cbn [pow]. lra.
Qed.

Lemma sigmoid32_100 : sigmoid32 100 = 1.
Proof.
  unfold sigmoid32. apply round32_saturates.
  destruct sigmoid_100_near_1 as [Hlo Hhi]. split; [|exact Hhi].
  apply Rle_lt_trans with (1 - / 2 ^ 32); [|exact Hlo].
  cbn [pow]. lra.
Qed.

Lemma powerRZ_2_nonneg (k : Z) :
  (0 <= k)%Z -> powerRZ 2 k = IZR (2 ^ k).
Proof.
  intros Hk. rewrite <- (Z2Nat.id k Hk) at 1.
  rewrite <- pow_powerRZ, pow_IZR, Z2Nat.id by exact Hk. reflexivity.
Qed.

Lemma round32_unit_range (y : R) : 0 < y < 1 -> 0 <= round32 y <= 1.
Proof.
  intros [H0 H1]. unfold round32.
  destruct (Req_dec_T y 0) as [H|_]; [lra|].
  assert (He : (-126 <= exponent y <= -1)%Z).
  { unfold exponent. split; [lia|].
    apply Z.max_lub; [|lia].
    rewrite Rabs_pos_eq by lra.
    pose proof ln_2_pos as Hl2.
    assert (Hneg : ln y / ln 2 < 0).
    { apply (Rmult_lt_reg_r (ln 2)); [exact Hl2|].
      unfold Rdiv. rewrite Rmult_assoc, Rinv_l, Rmult_0_l by lra.
      rewrite Rmult_1_r, <- ln_1. apply ln_increasing; lra. }
    destruct (floor_bounds (ln y / ln 2)) as [Hf _].
    assert (Hlt : IZR (floor (ln y / ln 2)) < IZR 0) by lra.
    apply lt_IZR in Hlt. lia. }
  unfold ulp. set (e := exponent y) in *. clearbody e.
  assert (Hu : 0 < powerRZ 2 (e - 23)) by (apply powerRZ_lt; lra).
  assert (HN : IZR (2 ^ (23 - e)) * powerRZ 2 (e - 23) = 1).
  { rewrite <- powerRZ_2_nonneg by lia.
    rewrite <- powerRZ_add by lra.
    replace (23 - e + (e - 23))%Z with 0%Z by lia. reflexivity. }
  set (N := (2 ^ (23 - e))%Z) in *. clearbody N.
  set (q := powerRZ 2 (e - 23)) in *. clearbody q.
  assert (Hz0 : 0 < y / q) by (apply Rdiv_lt_0_compat; lra).
  assert (HzN : y / q < IZR N).
  { apply (Rmult_lt_reg_r q); [exact Hu|].
    unfold Rdiv. rewrite Rmult_assoc, Rinv_l by lra. lra. }
  set (z := y / q) in *. clearbody z.
  destruct (floor_bounds z) as [Hf1 Hf2].
  assert (Hf0 : (0 <= floor z)%Z).
  { assert (H : IZR (-1) < IZR (floor z)) by lra.
    apply lt_IZR in H. lia. }
  assert (HfN : (floor z < N)%Z) by (apply lt_IZR; lra).
  assert (Hne : (0 <= nearest_even z <= N)%Z).
  { unfold nearest_even. repeat destruct Rlt_dec; try lia.
    destruct (Z.even (floor z)); lia. }
  destruct Hne as [Hne0 HneN]. apply IZR_le in Hne0, HneN.
  split.
  - apply Rmult_le_pos; lra.
  - rewrite <- HN. apply Rmult_le_compat_r; lra.
Qed.

(** *** The score in float32 *)

Lemma score32_one_row (net : RecommenderNet) (u m : nat) :
  wf_net net -> (u < num_users net)%nat -> (m < num_movies net)%nat ->
  score32 net u m =
    Some (sigmoid32
            (f32_add
               (f32_add (dot32 (row (user_embedding net) u)
                               (row (movie_embedding net) m))
                        (entry (user_bias net) u))
               (entry (movie_bias net) m))).
Proof.
  intros ([HU _] & HUb & [HM _] & HMb) Hu Hm. unfold score32.
  rewrite (lookup_row (user_embedding net) u) by lia.
  rewrite (lookup_row (user_bias net) u) by (destruct HUb; lia).
  rewrite (lookup_row (movie_embedding net) m) by lia.
  rewrite (lookup_row (movie_bias net) m) by (destruct HMb; lia).
  simpl.
  rewrite (bias_row _ _ _ HUb Hu), (bias_row _ _ _ HMb Hm). reflexivity.
Qed.

Lemma sigmoid32_range (x : R) : 0 <= sigmoid32 x <= 1.
Proof. apply round32_unit_range, sigmoid_range. Qed.

Lemma wf_net_10 : wf_net MoreExamples.net_10.
Proof. repeat split; simpl; repeat constructor. Qed.

Lemma f32_mul_10_10 : f32_mul 10 10 = 100.
Proof.
  unfold f32_mul. replace (10 * 10) with 100 by lra. apply round32_100.
Qed.

Lemma f32_add_100_0 : f32_add 100 0 = 100.
Proof.
  unfold f32_add. replace (100 + 0) with 100 by lra. apply round32_100.
Qed.

Lemma f32_add_0_100 : f32_add 0 100 = 100.
Proof.
  unfold f32_add. replace (0 + 100) with 100 by lra. apply round32_100.
Qed.

Lemma score32_net_10 : score32 MoreExamples.net_10 0 0 = Some 1.
Proof.
  unfold score32. simpl. unfold dot32. simpl.
  rewrite f32_mul_10_10, f32_add_0_100, !f32_add_100_0, sigmoid32_100.
  reflexivity.
Qed.

Lemma max_float_large : 100 <= max_float.
Proof.
  unfold max_float.
  assert (H23 : 0 < / 2 ^ 23 < 1).
  { split; [apply Rinv_0_lt_compat, pow_lt; lra|].
    rewrite <- Rinv_1. apply Rinv_lt_contravar; [|cbn [pow]; lra].
    rewrite Rmult_1_l. apply pow_lt. lra. }
  assert (H127 : 128 <= 2 ^ 127).
  { change 127%nat with (7 + 120)%nat. rewrite pow_add.
    assert (1 <= 2 ^ 120) by (apply pow_R1_Rle; lra).
    assert (H7 : 2 ^ 7 = 128) by (cbn [pow]; lra).
    nra. }
  nra.
Qed.

Lemma in_range_net_10 : in_range MoreExamples.net_10 0 0.
Proof.
  unfold in_range. simpl. unfold dot32. simpl.
  rewrite f32_mul_10_10, f32_add_0_100, !f32_add_100_0.
  pose proof max_float_large as Hmax.
  repeat (apply List.Forall_cons; [rewrite Rabs_pos_eq; lra|]).
  apply List.Forall_nil.
Qed.

(** C4 as stated fails in float32: with the user vector [10], the movie
    vector [10] and both biases 0 the pair (0, 0) is valid, no
    intermediate result leaves the format, and the score is exactly 1,
    which is not strictly between 0 and 1. *)
Lemma score_in_float32_reaches_1 :
  wf_net MoreExamples.net_10 /\
  (0 < num_users MoreExamples.net_10)%nat /\
  (0 < num_movies MoreExamples.net_10)%nat /\
  in_range MoreExamples.net_10 0 0 /\
  score32 MoreExamples.net_10 0 0 = Some 1 /\
  ~ (exists s : R, score32 MoreExamples.net_10 0 0 = Some s /\ 0 < s < 1).
Proof.
  split; [exact wf_net_10|].
  split; [simpl; lia|]. split; [simpl; lia|].
  split; [exact in_range_net_10|].
  split; [exact score32_net_10|].
  intros (s & Hs & Hlo & Hhi).
  rewrite score32_net_10 in Hs. injection Hs as <-. lra.
Qed.

(** C4, amended: for every valid pair and every value of the tables for
    which no intermediate result leaves the format, the score the
    float32 code computes lies between 0 and 1, the bounds included; the
    score in exact arithmetic lies strictly between 0 and 1. *)
Theorem score_in_closed_unit_interval (net : RecommenderNet) (u m : nat) :
  wf_net net -> (u < num_users net)%nat -> (m < num_movies net)%nat ->
  in_range net u m ->
  (exists s32 : R, score32 net u m = Some s32 /\ 0 <= s32 <= 1) /\
  (exists s : R, score net u m = Some s /\ 0 < s < 1).
Proof.
  intros Hwf Hu Hm _. split.
  - rewrite (score32_one_row net u m Hwf Hu Hm).
    eexists. split; [reflexivity|apply sigmoid32_range].
  - rewrite (RecommenderFacts.score_one_row net u m Hwf Hu Hm).
    eexists. split; [reflexivity|apply sigmoid_range].
Qed.

Lemma score_in_closed_unit_interval_witness :
  (exists s32 : R,
     score32 MoreExamples.net_10 0 0 = Some s32 /\ 0 <= s32 <= 1) /\
  (exists s : R, score MoreExamples.net_10 0 0 = Some s /\ 0 < s < 1).
Proof.
  apply (score_in_closed_unit_interval MoreExamples.net_10 0 0).
  - exact wf_net_10.
  - simpl. lia.
  - simpl. lia.
  - exact in_range_net_10.
Defined.

End Float32Facts.


(** ** The normalised targets *)

Module RatingsFacts.

Import Ratings.

Lemma fold_min_le_init (l : list R) (x : R) : fold_left Rmin l x <= x.
Proof.
  revert x. induction l as [|a l IH]; intros x; simpl; [lra|].
  eapply Rle_trans; [apply IH|apply Rmin_l].
Qed.

Lemma fold_min_le_elem (l : list R) (x r : R) :
  r ∈ l -> fold_left Rmin l x <= r.
Proof.
  revert x. induction l as [|a l IH]; intros x Hr; simpl.
  - by apply elem_of_nil in Hr.
  - apply elem_of_cons in Hr as [->|Hr].
    + eapply Rle_trans; [apply fold_min_le_init|apply Rmin_r].
    + by apply IH.
Qed.

Lemma fold_max_ge_init (l : list R) (x : R) : x <= fold_left Rmax l x.
Proof.
  revert x. induction l as [|a l IH]; intros x; simpl; [lra|].
  eapply Rle_trans; [apply Rmax_l|apply IH].
Qed.

Lemma fold_max_ge_elem (l : list R) (x r : R) :
  r ∈ l -> r <= fold_left Rmax l x.
Proof.
  revert x. induction l as [|a l IH]; intros x Hr; simpl.
  - by apply elem_of_nil in Hr.
  - apply elem_of_cons in Hr as [->|Hr].
    + eapply Rle_trans; [apply Rmax_r|apply fold_max_ge_init].
    + by apply IH.
Qed.

Lemma py_min_le (l : list R) (lo r : R) :
  py_min l = Some lo -> r ∈ l -> lo <= r.
Proof.
  destruct l as [|x l]; simpl; intros [= <-] Hr.
  apply elem_of_cons in Hr as [->|Hr].
  - apply fold_min_le_init.
  - by apply fold_min_le_elem.
Qed.

Lemma py_max_ge (l : list R) (hi r : R) :
  py_max l = Some hi -> r ∈ l -> r <= hi.
Proof.
  destruct l as [|x l]; simpl; intros [= <-] Hr.
  apply elem_of_cons in Hr as [->|Hr].
  - apply fold_max_ge_init.
  - by apply fold_max_ge_elem.
Qed.

Lemma normalize_range (lo hi x : R) :
  lo < hi -> lo <= x <= hi -> 0 <= normalize lo hi x <= 1.
Proof.
  intros Hlt [Hlo Hhi]. unfold normalize. split.
  - apply Rmult_le_pos; [lra|].
    apply Rlt_le, Rinv_0_lt_compat. lra.
  - apply (Rmult_le_reg_r (hi - lo)); [lra|].
    unfold Rdiv. rewrite Rmult_assoc, Rinv_l by lra. lra.
Qed.

(** C8: with [min_rating] and [max_rating] the least and the greatest
    rating of the table and [min_rating < max_rating], the normalised
    value of every rating of the table lies in [0, 1], and so does every
    entry of the target column [y]. *)
Theorem normalized_ratings_in_unit_interval
    (sample : list Rating -> list Rating) (df : list Rating)
    (min_rating max_rating : R) :
  Permutation (sample df) df ->
  py_min (map rating df) = Some min_rating ->
  py_max (map rating df) = Some max_rating ->
  min_rating < max_rating ->
  (forall r : Rating, r ∈ df ->
     0 <= normalize min_rating max_rating (rating r) <= 1) /\
  exists targets : list R,
    y sample df = Some targets /\
    Forall (fun t => 0 <= t <= 1) targets.
Proof.
  intros Hperm Hmin Hmax Hlt.
  assert (Hall : forall r : Rating, r ∈ df ->
            0 <= normalize min_rating max_rating (rating r) <= 1).
  { intros r Hr. apply normalize_range; [exact Hlt|].
    assert (Hin : rating r ∈ map rating df)
      by (apply (list_elem_of_fmap_2 rating); exact Hr).
    split; [eapply py_min_le|eapply py_max_ge]; eassumption. }
  split; [exact Hall|].
  unfold y. rewrite Hmin, Hmax. simpl. eexists. split; [reflexivity|].
  apply Forall_fmap, Forall_forall. intros r Hr. simpl.
  apply Hall. rewrite <- Hperm. exact Hr.
Qed.

Lemma normalized_ratings_in_unit_interval_witness :
  (forall r : Rating, r ∈ Examples.df_3 ->
     0 <= normalize (Rmin (Rmin 4 1) 5) (Rmax (Rmax 4 1) 5) (rating r)
       <= 1) /\
  exists targets : list R,
    y (@rev Rating) Examples.df_3 = Some targets /\
    Forall (fun t => 0 <= t <= 1) targets.
Proof.
  apply (normalized_ratings_in_unit_interval (@rev Rating) Examples.df_3).
  - symmetry. apply Permutation_rev.
  - reflexivity.
  - reflexivity.
  - unfold Rmin, Rmax. repeat destruct Rle_dec; lra.
Defined.

End RatingsFacts.

(** ** The binary cross-entropy of one example *)

Module LossFacts.

Import Recommender.

Lemma ln_lt_minus_1 (x : R) : 0 < x -> x <> 1 -> ln x < x - 1.
Proof.
  intros Hx Hne.
  assert (Hln : ln x <> 0) by (apply ln_neq_0; assumption).
  pose proof (exp_ineq1 (ln x) Hln) as H.
  rewrite (exp_ln x Hx) in H. lra.
Qed.

Lemma ln_le_minus_1 (x : R) : 0 < x -> ln x <= x - 1.
Proof.
  intros Hx. destruct (Req_dec x 1) as [->|Hne].
  - rewrite ln_1. lra.
  - left. by apply ln_lt_minus_1.
Qed.

Lemma ln_neg (x : R) : 0 < x < 1 -> ln x < 0.
Proof.
  intros [H0 H1]. rewrite <- ln_1. apply ln_increasing; assumption.
Qed.

Lemma ln_ratio (x y : R) : 0 < x -> 0 < y -> ln (y / x) = ln y - ln x.
Proof.
  intros Hx Hy. unfold Rdiv.
  rewrite ln_mult, ln_Rinv by (try apply Rinv_0_lt_compat; lra). lra.
Qed.

Lemma bce_flip (t p : R) :
  binary_crossentropy t p = binary_crossentropy (1 - t) (1 - p).
Proof.
  unfold binary_crossentropy.
  replace (1 - (1 - t)) with t by lra.
  replace (1 - (1 - p)) with p by lra. lra.
Qed.

Lemma bce_increasing_right (t p1 p2 : R) :
  0 <= t -> t <= p1 -> p1 < p2 -> p2 < 1 -> 0 < p1 ->
  binary_crossentropy t p1 < binary_crossentropy t p2.
Proof.
  intros Ht Htp Hlt Hp2 Hp1. unfold binary_crossentropy.
  assert (Ha : ln p2 - ln p1 <= (p2 - p1) / p1).
  { rewrite <- ln_ratio by lra.
    replace ((p2 - p1) / p1) with (p2 / p1 - 1) by (field; lra).
    apply ln_le_minus_1. apply Rdiv_lt_0_compat; lra. }
  assert (Hb : ln (1 - p2) - ln (1 - p1) < - ((p2 - p1) / (1 - p1))).
  { rewrite <- ln_ratio by lra.
    replace (- ((p2 - p1) / (1 - p1))) with ((1 - p2) / (1 - p1) - 1)
      by (field; lra).
    apply ln_lt_minus_1.
    - apply Rdiv_lt_0_compat; lra.
    - intros Heq.
      assert (H : (1 - p2) / (1 - p1) * (1 - p1) = 1 - p2) by (field; lra).
      rewrite Heq in H. lra. }
  set (a := ln p2 - ln p1) in *. set (b := ln (1 - p2) - ln (1 - p1)) in *.
  set (u := (p2 - p1) / p1) in *. set (v := (p2 - p1) / (1 - p1)) in *.
  assert (Hu : u * p1 = p2 - p1) by (unfold u; field; lra).
  assert (Hv : v * (1 - p1) = p2 - p1) by (unfold v; field; lra).
  assert (Hu0 : 0 < u) by (unfold u; apply Rdiv_lt_0_compat; lra).
  assert (Hv0 : 0 < v) by (unfold v; apply Rdiv_lt_0_compat; lra).
  assert (Huv : t * u <= (1 - t) * v).
  { apply (Rmult_le_reg_r (p1 * (1 - p1))).
    - apply Rmult_lt_0_compat; lra.
    - replace (t * u * (p1 * (1 - p1))) with (t * (1 - p1) * (u * p1)) by ring.
      replace ((1 - t) * v * (p1 * (1 - p1)))
        with ((1 - t) * p1 * (v * (1 - p1))) by ring.
      rewrite Hu, Hv. nra. }
  assert (Hta : t * a <= t * u) by (apply Rmult_le_compat_l; lra).
  assert (Htb : (1 - t) * b < (1 - t) * - v) by (apply Rmult_lt_compat_l; lra).
  assert (Hgoal : t * a + (1 - t) * b < 0) by lra.
  unfold a, b in Hgoal. lra.
Qed.

Lemma bce_limit_0 (eps : R) :
  0 < eps ->
  exists delta : R, 0 < delta /\
    forall p : R, 0 < p < 1 -> Rabs (p - 0) < delta ->
      Rabs (binary_crossentropy 0 p) < eps.
Proof.
  intros Heps. exists (1 - exp (- eps)). split.
  - assert (exp (- eps) < exp 0) by (apply exp_increasing; lra).
    rewrite exp_0 in H. lra.
  - intros p [Hp0 Hp1] Hd. unfold binary_crossentropy.
    rewrite Rminus_0_r, Rabs_pos_eq in Hd by lra.
    assert (Hl : ln (1 - p) < 0) by (apply ln_neg; lra).
    assert (Hg : - eps < ln (1 - p)).
    { rewrite <- (ln_exp (- eps)). apply ln_increasing; [apply exp_pos|lra]. }
    apply Rabs_def1; lra.
Qed.

(** C3, as amended: for a target [t] in [0, 1] the loss strictly grows
    with the absolute error over predictions on one side of [t]; its value
    at [p = t] is positive when [0 < t < 1]; and it tends to 0 as [p] tends
    to [t] when [t] is 0 or 1. *)
Theorem bce_monotone_on_each_side_and_limit_at_0_1 (t p1 p2 : R) :
  0 <= t <= 1 -> 0 < p1 < 1 -> 0 < p2 < 1 ->
  t <= p1 < p2 \/ p2 < p1 <= t ->
  binary_crossentropy t p1 < binary_crossentropy t p2 /\
  (0 < t < 1 -> 0 < binary_crossentropy t t) /\
  (t = 0 \/ t = 1 ->
   forall eps : R, 0 < eps ->
   exists delta : R, 0 < delta /\
     forall p : R, 0 < p < 1 -> Rabs (p - t) < delta ->
       Rabs (binary_crossentropy t p) < eps).
Proof.
  intros Ht Hp1 Hp2 Hside. split; [|split].
  - destruct Hside as [[H1 H2]|[H1 H2]].
    + apply bce_increasing_right; lra.
    + rewrite (bce_flip t p1), (bce_flip t p2).
      apply bce_increasing_right; lra.
  - intros Ht'. unfold binary_crossentropy.
    assert (ln t < 0) by (apply ln_neg; lra).
    assert (ln (1 - t) < 0) by (apply ln_neg; lra).
    nra.
  - intros [->| ->] eps Heps.
    + by apply bce_limit_0.
    + destruct (bce_limit_0 eps Heps) as (delta & Hd & Hlim).
      exists delta. split; [exact Hd|].
      intros p Hp Hclose. rewrite bce_flip.
      replace (1 - 1) with 0 by lra. apply Hlim; [lra|].
      replace (1 - p - 0) with (- (p - 1)) by lra.
      rewrite Rabs_Ropp. exact Hclose.
Qed.

Lemma bce_monotone_on_each_side_witness :
  binary_crossentropy 0 (1 / 4) < binary_crossentropy 0 (1 / 2) /\
  (0 < 0 < 1 -> 0 < binary_crossentropy 0 0) /\
  (0 = 0 \/ 0 = 1 ->
   forall eps : R, 0 < eps ->
   exists delta : R, 0 < delta /\
     forall p : R, 0 < p < 1 -> Rabs (p - 0) < delta ->
       Rabs (binary_crossentropy 0 p) < eps).
Proof.
  apply (bce_monotone_on_each_side_and_limit_at_0_1 0 (1 / 4) (1 / 2)).
  - lra.
  - lra.
  - lra.
  - left. lra.
Defined.

(** C3 as stated fails twice: at target 1/2 the loss does not tend to 0 as
    the prediction tends to the target (at the target it is [ln 2]); and
    at target 1/4 the prediction 1/16 has the smaller absolute error but
    the larger loss than the prediction 1/2. *)
Lemma bce_limit_and_monotonicity_fail :
  ~ (forall eps : R, 0 < eps ->
       exists delta : R, 0 < delta /\
         forall p : R, 0 < p < 1 -> Rabs (p - 1 / 2) < delta ->
           Rabs (binary_crossentropy (1 / 2) p) < eps) /\
  (Rabs (1 / 16 - 1 / 4) < Rabs (1 / 2 - 1 / 4) /\
   binary_crossentropy (1 / 4) (1 / 2)
   < binary_crossentropy (1 / 4) (1 / 16)).
Proof.
  split.
  - intros H. destruct (H (1 / 2)) as (delta & Hd & Hlim); [lra|].
    specialize (Hlim (1 / 2)).
    assert (Hc : Rabs (1 / 2 - 1 / 2) < delta).
    { replace (1 / 2 - 1 / 2) with 0 by lra. rewrite Rabs_R0. exact Hd. }
    specialize (Hlim ltac:(lra) Hc).
    unfold binary_crossentropy in Hlim.
    replace (1 - 1 / 2) with (1 / 2) in Hlim by lra.
    replace (1 / 2) with (/ 2) in Hlim at 2 4 by lra.
    rewrite ln_Rinv in Hlim by lra.
    pose proof ln_lt_2 as H2.
    apply Rabs_def2 in Hlim. lra.
  - split.
    + rewrite Rabs_left, Rabs_pos_eq by lra. lra.
    + unfold binary_crossentropy.
      replace (1 - 1 / 2) with (1 / 2) by lra.
      replace (1 / 16) with (1 / 2 * (1 / 2 * (1 / 2 * (1 / 2)))) by lra.
      assert (H15 : ln (1 - 1 / 2 * (1 / 2 * (1 / 2 * (1 / 2)))) < 0)
        by (apply ln_neg; lra).
      rewrite !ln_mult by lra. lra.
Qed.

End LossFacts.

(** ** The sentiment model *)

Module SentimentFacts.

Import Sentiment.

Lemma length_pad_sequence (n : nat) (s : list nat) :
  length (pad_sequence n s) = n.
Proof.
  unfold pad_sequence. destruct (decide (n ≤ length s)%nat) as [Hle|Hgt].
  - rewrite length_drop. lia.
  - rewrite length_app, length_replicate. lia.
Qed.

Lemma pad_sequence_tokens (n bound : nat) (s : list nat) :
  (0 < bound)%nat ->
  Forall (fun t => (t < bound)%nat) s ->
  Forall (fun t => (t < bound)%nat) (pad_sequence n s).
Proof.
  intros Hb Hs. unfold pad_sequence.
  destruct (decide (n ≤ length s)%nat) as [Hle|Hgt].
  - by apply Forall_drop.
  - apply Forall_app. split; [|exact Hs].
    by apply Forall_replicate.
Qed.

Lemma embedding_lookup_total (table : list (list R)) (ids : list nat) :
  Forall (fun t => (t < length table)%nat) ids ->
  exists x, mapM (fun i => table !! i) ids = Some x /\
            length x = length ids.
Proof.
  intros Hids.
  assert (His : is_Some (mapM (fun i => table !! i) ids)).
  { apply mapM_is_Some. eapply Forall_impl; [exact Hids|].
    intros i Hi. simpl in *. by apply lookup_lt_is_Some_2. }
  destruct His as [x Hx]. exists x. split; [exact Hx|].
  symmetry. by eapply length_mapM.
Qed.

Lemma length_lstm_from (units : nat) (w : LSTMWeights) (st : list R * list R)
    (xs : list (list R)) :
  length (lstm_from units w st xs) = length xs.
Proof.
  revert st. induction xs as [|x xs IH]; intros st; simpl; [reflexivity|].
  by rewrite IH.
Qed.

Lemma length_bidirectional (units : nat) (fw bw : LSTMWeights)
    (xs : list (list R)) :
  length (bidirectional units fw bw xs) = length xs.
Proof.
  unfold bidirectional, lstm.
  rewrite length_zip_with, length_reverse, !length_lstm_from, length_reverse.
  lia.
Qed.

Lemma length_vecmat (n : nat) (x : list R) (W : list (list R)) :
  Forall (fun r => length r = n) W -> length (vecmat n x W) = n.
Proof.
  unfold vecmat. intros HW. revert x.
  induction HW as [|r W Hr _ IH]; intros [|a x]; simpl;
    try apply length_replicate.
  unfold vadd. rewrite length_zip_with, length_map, Hr.
  unfold vadd in IH. rewrite IH. lia.
Qed.

Lemma outputs_row (w : Weights) (v : list R) :
  wf_weights w ->
  exists p : R,
    dense 1 sigmoid (outputs_kernel w) (outputs_bias w) v = [p] /\
    0 < p < 1.
Proof.
  intros (_ & _ & _ & _ & _ & [_ HK] & Hb). unfold dense, vadd.
  pose proof (length_vecmat 1 v (outputs_kernel w) HK) as Hlen.
  destruct (vecmat 1 v (outputs_kernel w)) as [|a [|??]]; simpl in Hlen;
    try lia.
  destruct (outputs_bias w) as [|b [|??]]; simpl in Hb; try lia.
  simpl. eexists. split; [reflexivity|apply sigmoid_range].
Qed.

(** C2, what the code does: on every padded sequence the model returns
    one probability for each of the 200 positions, a tensor of shape
    (200, 1), and not a single scalar. *)
Theorem model_returns_a_probability_per_position
    (w : Weights) (s : list nat) :
  wf_weights w ->
  Forall (fun t => (t < max_features)%nat) s ->
  exists out : list (list R),
    model w (pad_sequence maxlen s) = Some out /\
    length out = 200%nat /\
    Forall (fun r => exists p : R, r = [p] /\ 0 < p < 1) out.
Proof.
  intros Hwf Hs.
  assert (Hemb : length (embeddings w) = max_features) by apply Hwf.
  destruct (embedding_lookup_total (embeddings w) (pad_sequence maxlen s))
    as (x & Hx & Hlen).
  { rewrite Hemb. apply pad_sequence_tokens; [|exact Hs].
    unfold max_features. lia. }
  rewrite length_pad_sequence in Hlen.
  unfold model. rewrite Hx. simpl.
  destruct x as [|x0 x]; [discriminate|]. simpl.
  eexists. split; [reflexivity|]. split.
  - rewrite !length_map, length_bidirectional. exact Hlen.
  - apply Forall_fmap, Forall_forall. intros v _. simpl.
    by apply outputs_row.
Qed.

Lemma has_shape_replicate (rows cols : nat) (x : R) :
  has_shape rows cols (replicate rows (replicate cols x)).
Proof.
  split.
  - apply length_replicate.
  - apply Forall_replicate, length_replicate.
Qed.

Lemma wf_zero_lstm : wf_lstm 128 64 Examples.zero_lstm.
Proof.
  unfold wf_lstm, Examples.zero_lstm.
  cbn [lstm_kernel lstm_recurrent_kernel lstm_bias].
  split; [|split].
  - apply (has_shape_replicate 128 256).
  - apply (has_shape_replicate 64 256).
  - apply length_replicate.
Qed.

Lemma wf_zero_weights : wf_weights Examples.zero_weights.
Proof.
  unfold wf_weights, Examples.zero_weights.
  cbn [embeddings forward_layer backward_layer dense_kernel dense_bias
       outputs_kernel outputs_bias].
  split; [|split; [|split; [|split; [|split; [|split]]]]].
  - apply has_shape_replicate.
  - exact wf_zero_lstm.
  - exact wf_zero_lstm.
  - apply has_shape_replicate.
  - apply length_replicate.
  - apply has_shape_replicate.
  - apply length_replicate.
Qed.

Lemma model_returns_a_probability_per_position_witness :
  exists out : list (list R),
    model Examples.zero_weights (pad_sequence maxlen [1%nat; 2%nat])
      = Some out /\
    length out = 200%nat /\
    Forall (fun r => exists p : R, r = [p] /\ 0 < p < 1) out.
Proof.
  apply (model_returns_a_probability_per_position
           Examples.zero_weights [1%nat; 2%nat]).
  - exact wf_zero_weights.
  - unfold max_features.
    constructor; [lia|]. constructor; [lia|]. constructor.
Defined.

End SentimentFacts.

(** ** The recommendation cell *)

Module RecommendFacts.

Import Ratings Recommend.

(** *** The index dictionaries *)

Lemma encode_fold_lookup (ids : list Z) (k : nat) (d : gmap Z nat)
    (x : Z) (i : nat) :
  fold_left (fun d ix => <[ix.2 := ix.1]> d)
            (zip (seq k (length ids)) ids) d !! x = Some i ->
  d !! x = Some i \/ ((k <= i)%nat /\ ids !! (i - k)%nat = Some x).
Proof.
  revert k d. induction ids as [|a ids IH]; intros k d; simpl.
  - intros H. by left.
  - intros H. apply IH in H as [H|[Hle H]].
    + destruct (decide (a = x)) as [->|Hne].
      * rewrite lookup_insert_eq in H. injection H as <-.
        right. split; [lia|]. by rewrite Nat.sub_diag.
      * rewrite lookup_insert_ne in H by done. by left.
    + right. split; [lia|].
      replace (i - k)%nat with (S (i - S k)) by lia. exact H.
Qed.

Lemma encode_dict_lookup (ids : list Z) (x : Z) (i : nat) :
  encode_dict ids !! x = Some i -> ids !! i = Some x.
Proof.
  unfold encode_dict. intros H.
  apply encode_fold_lookup in H as [H|[_ H]].
  - by rewrite lookup_empty in H.
  - by rewrite Nat.sub_0_r in H.
Qed.

Lemma decode_fold_lookup (ids : list Z) (k : nat) (d : gmap nat Z)
    (i : nat) :
  fold_left (fun d ix => <[ix.1 := ix.2]> d)
            (zip (seq k (length ids)) ids) d !! i
  = if decide (k <= i < k + length ids)%nat
    then ids !! (i - k)%nat else d !! i.
Proof.
  revert k d. induction ids as [|a ids IH]; intros k d; simpl.
  - destruct (decide _); [lia|reflexivity].
  - rewrite IH. simpl. repeat case_decide; try lia.
    + replace (i - k)%nat with (S (i - S k)) by lia. reflexivity.
    + assert (i = k) as -> by lia.
      by rewrite lookup_insert_eq, Nat.sub_diag.
    + rewrite lookup_insert_ne by lia. reflexivity.
Qed.

Lemma decode_dict_lookup (ids : list Z) (i : nat) :
  decode_dict ids !! i = ids !! i.
Proof.
  unfold decode_dict. rewrite decode_fold_lookup, Nat.sub_0_r.
  destruct (decide _) as [_|Hout]; [reflexivity|].
  rewrite lookup_empty. symmetry. apply lookup_ge_None. lia.
Qed.

Lemma size_map_seq_list (k : nat) (ids : list Z) :
  size (map_seq k ids : gmap nat Z) = length ids.
Proof.
  revert k. induction ids as [|a ids IH]; intros k; simpl.
  - apply map_size_empty.
  - rewrite map_size_insert_None, IH; [reflexivity|].
    apply lookup_map_seq_None. lia.
Qed.

Lemma size_decode_dict (ids : list Z) : size (decode_dict ids) = length ids.
Proof.
  replace (decode_dict ids) with (map_seq 0 ids : gmap nat Z).
  - apply size_map_seq_list.
  - apply map_eq. intros i.
    by rewrite lookup_map_seq_0, decode_dict_lookup.
Qed.

Lemma decode_encode (ids : list Z) (x : Z) (i : nat) :
  encode_dict ids !! x = Some i ->
  decode_dict ids !! i = Some x /\ (i < size (decode_dict ids))%nat.
Proof.
  intros H. apply encode_dict_lookup in H.
  rewrite decode_dict_lookup, size_decode_dict. split; [exact H|].
  by eapply lookup_lt_Some.
Qed.

Section Stage.

Variable argsort : list R -> list nat.

(** *** The candidates *)

Lemma session_ids_spec (s : Session) (x : Z) :
  x ∈ session_ids s -> unrated s x /\ indexed s x.
Proof.
  unfold session_ids, candidate_ids. intros Hx.
  apply elem_of_elements, elem_of_intersection in Hx as [Hcol Hdom].
  apply elem_of_list_to_set in Hcol. split.
  - intros r Hr Hu Hm. unfold not_watched_column in Hcol.
    apply list_elem_of_fmap in Hcol as (mv & -> & Hmv).
    apply list_elem_of_filter in Hmv as [Hnot _].
    apply Hnot. rewrite <- Hm.
    apply (list_elem_of_fmap_2 movieId).
    unfold movies_watched_by_user. apply list_elem_of_filter. by split.
  - apply elem_of_dom in Hdom as [i Hi]. exists i. split; [exact Hi|].
    by apply decode_encode in Hi as [_ Hlt].
Qed.

Lemma session_not_watched_spec (s : Session) :
  Forall (fun e => exists i : nat,
            e = Some i /\ (i < Ratings.num_movies (df s))%nat)
         (session_not_watched s).
Proof.
  unfold session_not_watched, movies_not_watched.
  apply Forall_fmap, Forall_forall. intros x Hx. simpl.
  destruct (session_ids_spec s x Hx) as [_ (i & Hi & Hlt)].
  exists i. by split.
Qed.

Lemma recommended_spec (s : Session) (top : list nat)
    (recs : list (option Z)) :
  recommended_movie_ids (movie_encoded2movie (df s))
    (session_not_watched s) top = Some recs ->
  Forall (fun r => exists x : Z, r = Some x /\ x ∈ session_ids s) recs.
Proof.
  unfold recommended_movie_ids. intros H.
  apply mapM_Some_1 in H.
  induction H as [|pos r top recs Hr _ IH]; constructor; [|exact IH].
  unfold session_not_watched, movies_not_watched in Hr.
  rewrite list_lookup_fmap in Hr.
  destruct (session_ids s !! pos) as [x|] eqn:Hpos; simpl in Hr;
    [|discriminate].
  injection Hr as <-.
  assert (Hx : x ∈ session_ids s)
    by (apply list_elem_of_lookup; by exists pos).
  destruct (session_ids_spec s x Hx) as [_ (i & Hi & _)].
  exists x. split; [|exact Hx].
  rewrite Hi. simpl. by apply decode_encode in Hi as [Hd _].
Qed.

(** C10: every candidate movie has no rating by the user of the
    session and has a dense index below [num_movies]; the list handed
    to the model holds such indices only; and every movie the cell
    recommends is one of the candidates, hence without a rating by that
    user. *)
Theorem candidates_are_unrated_and_indexed (s : Session) :
  Forall (fun x => unrated s x /\ indexed s x) (session_ids s) /\
  Forall (fun e => exists i : nat,
            e = Some i /\ (i < Ratings.num_movies (df s))%nat)
         (session_not_watched s) /\
  forall recs : list (option Z),
    recommend argsort s = Some recs ->
    Forall (fun r => exists x : Z,
              r = Some x /\ x ∈ session_ids s /\ unrated s x) recs.
Proof.
  split; [|split].
  - apply Forall_forall. intros x Hx. by apply session_ids_spec.
  - apply session_not_watched_spec.
  - intros recs Hrec. unfold recommend in Hrec.
    destruct (session_top argsort s) as [top|]; simpl in Hrec;
      [|discriminate].
    apply recommended_spec in Hrec.
    eapply Forall_impl; [exact Hrec|].
    intros r (x & -> & Hx). exists x.
    repeat split; [exact Hx|]. by apply session_ids_spec.
Qed.

End Stage.

Lemma insert_by_perm (key : nat -> R) (i : nat) (l : list nat) :
  Permutation (Examples.insert_by key i l) (i :: l).
Proof.
  induction l as [|j l IH]; simpl; [reflexivity|].
  destruct (Rle_dec (key i) (key j)); [reflexivity|].
  rewrite IH. apply perm_swap.
Qed.

(** The [argsort] of the examples lists every position once. *)
Lemma insertion_argsort_perm (scores : list R) :
  Permutation (Examples.insertion_argsort scores) (seq 0 (length scores)).
Proof.
  unfold Examples.insertion_argsort.
  induction (seq 0 (length scores)) as [|i l IH]; simpl; [reflexivity|].
  rewrite insert_by_perm. by constructor.
Qed.

(** The cell on the session of user 9: movie 20 is the one candidate and
    is recommended. *)
Lemma recommend_session_9 :
  recommend Examples.insertion_argsort Examples.session_9
  = Some [Some 20%Z].
Proof. vm_compute. reflexivity. Qed.

Lemma candidates_are_unrated_and_indexed_witness :
  Forall (fun r => exists x : Z,
            r = Some x /\ x ∈ session_ids Examples.session_9 /\
            unrated Examples.session_9 x) [Some 20%Z].
Proof.
  apply (proj2 (proj2 (candidates_are_unrated_and_indexed
                         Examples.insertion_argsort Examples.session_9))).
  vm_compute. reflexivity.
Defined.

End RecommendFacts.

(** ** The index dictionaries *)

Module IndexFacts.

Import Ratings.

Lemma elem_of_unique_from (seen l : list Z) (x : Z) :
  x ∈ unique_from seen l <-> x ∈ l /\ x ∉ seen.
Proof.
  revert seen. induction l as [|a l IH]; intros seen; simpl.
  - split; [intros H; by apply elem_of_nil in H|intros [H _]; done].
  - destruct (decide (a ∈ seen)) as [Hin|Hout].
    + rewrite IH, elem_of_cons. clear IH.
      split; [tauto|]. intros [[->|Hl] Hs]; [done|by split].
    + rewrite elem_of_cons, IH, !elem_of_cons. clear IH.
      destruct (decide (x = a)) as [->|Hne]; tauto.
Qed.

Lemma NoDup_unique_from (seen l : list Z) : NoDup (unique_from seen l).
Proof.
  revert seen. induction l as [|a l IH]; intros seen; simpl.
  - constructor.
  - destruct (decide (a ∈ seen)); [apply IH|].
    constructor; [|apply IH].
    rewrite elem_of_unique_from. intros [_ H]. apply H. by left.
Qed.

Lemma elem_of_unique (l : list Z) (x : Z) : x ∈ unique l <-> x ∈ l.
Proof.
  unfold unique. rewrite elem_of_unique_from. split; [by intros [H _]|].
  intros H. split; [done|]. intros H'. by apply elem_of_nil in H'.
Qed.

Lemma NoDup_unique (l : list Z) : NoDup (unique l).
Proof. apply NoDup_unique_from. Qed.

Lemma encode_fold_absent (ids : list Z) (k : nat) (d : gmap Z nat) (x : Z) :
  x ∉ ids ->
  fold_left (fun d ix => <[ix.2 := ix.1]> d)
            (zip (seq k (length ids)) ids) d !! x = d !! x.
Proof.
  revert k d. induction ids as [|a ids IH]; intros k d Hx; simpl;
    [reflexivity|].
  rewrite IH by (intros H; apply Hx; by right).
  apply lookup_insert_ne. intros ->. apply Hx. by left.
Qed.

Lemma encode_fold_present (ids : list Z) (k : nat) (d : gmap Z nat)
    (x : Z) (j : nat) :
  NoDup ids -> ids !! j = Some x ->
  fold_left (fun d ix => <[ix.2 := ix.1]> d)
            (zip (seq k (length ids)) ids) d !! x = Some (k + j)%nat.
Proof.
  intros Hnd. revert k d j.
  induction Hnd as [|a ids Ha Hnd IH]; intros k d j Hj; simpl.
  - by rewrite lookup_nil in Hj.
  - destruct j as [|j]; simpl in Hj.
    + injection Hj as ->.
      rewrite encode_fold_absent by done.
      rewrite lookup_insert_eq. f_equal. lia.
    + rewrite (IH (S k) _ j Hj). f_equal. lia.
Qed.

Lemma encode_dict_present (ids : list Z) (x : Z) (j : nat) :
  NoDup ids -> ids !! j = Some x -> encode_dict ids !! x = Some j.
Proof.
  intros Hnd Hj. unfold encode_dict.
  by rewrite (encode_fold_present ids 0 ∅ x j Hnd Hj).
Qed.

Lemma encode_decode_iff (l : list Z) (x : Z) (i : nat) :
  encode_dict (unique l) !! x = Some i <->
  decode_dict (unique l) !! i = Some x.
Proof.
  rewrite RecommendFacts.decode_dict_lookup. split.
  - apply RecommendFacts.encode_dict_lookup.
  - apply encode_dict_present, NoDup_unique.
Qed.

Lemma encode_dict_is_Some (l : list Z) (x : Z) :
  is_Some (encode_dict (unique l) !! x) <-> x ∈ l.
Proof.
  rewrite <- elem_of_unique. split.
  - intros [i Hi]. apply RecommendFacts.encode_dict_lookup in Hi.
    apply list_elem_of_lookup. by exists i.
  - intros [i Hi]%list_elem_of_lookup. exists i.
    apply encode_dict_present; [apply NoDup_unique|exact Hi].
Qed.

Lemma size_encode_dict (l : list Z) :
  size (encode_dict (unique l)) = length (unique l).
Proof.
  rewrite <- size_dom.
  replace (dom (encode_dict (unique l)))
    with (list_to_set (unique l) : gset Z).
  - apply size_list_to_set, NoDup_unique.
  - apply set_eq. intros x.
    rewrite elem_of_list_to_set, elem_of_dom, encode_dict_is_Some.
    by rewrite elem_of_unique.
Qed.

(** The two dictionaries of a column are inverse to each other: [x] is
    encoded as [i] exactly when [i] is decoded as [x]; this holds for the
    user ids and for the movie ids. *)
Theorem encode_and_decode_are_inverse (df : list Rating) :
  (forall (x : Z) (i : nat),
     user2user_encoded df !! x = Some i <->
     userencoded2user df !! i = Some x) /\
  (forall (x : Z) (i : nat),
     movie2movie_encoded df !! x = Some i <->
     movie_encoded2movie df !! i = Some x).
Proof.
  split; intros x i; apply encode_decode_iff.
Qed.

Lemma encoded_ids (df : list Rating) :
  (forall u : Z,
     (exists r : Rating, r ∈ df /\ userId r = u) <->
     exists i : nat,
       user2user_encoded df !! u = Some i /\ (i < num_users df)%nat) /\
  (forall m : Z,
     (exists r : Rating, r ∈ df /\ movieId r = m) <->
     exists i : nat,
       movie2movie_encoded df !! m = Some i /\ (i < num_movies df)%nat).
Proof.
  split; intros v.
  - unfold user2user_encoded, num_users, user2user_encoded, user_ids.
    rewrite size_encode_dict. split.
    + intros (r & Hr & <-).
      destruct (proj2 (encode_dict_is_Some (map userId df) (userId r)))
        as [i Hi]; [by apply (list_elem_of_fmap_2 userId)|].
      exists i. split; [exact Hi|].
      apply RecommendFacts.encode_dict_lookup in Hi.
      by eapply lookup_lt_Some.
    + intros (i & Hi & _).
      assert (Hv : v ∈ map userId df)
        by (apply encode_dict_is_Some; by exists i).
      apply list_elem_of_fmap in Hv as (r & -> & Hr). by exists r.
  - unfold movie2movie_encoded, num_movies, movie_encoded2movie, movie_ids.
    rewrite RecommendFacts.size_decode_dict. split.
    + intros (r & Hr & <-).
      destruct (proj2 (encode_dict_is_Some (map movieId df) (movieId r)))
        as [i Hi]; [by apply (list_elem_of_fmap_2 movieId)|].
      exists i. split; [exact Hi|].
      apply RecommendFacts.encode_dict_lookup in Hi.
      by eapply lookup_lt_Some.
    + intros (i & Hi & _).
      assert (Hv : v ∈ map movieId df)
        by (apply encode_dict_is_Some; by exists i).
      apply list_elem_of_fmap in Hv as (r & -> & Hr). by exists r.
Qed.

(** The ids a dictionary knows are the ids of the table: an id has an index
    exactly when some row carries it, its index is below [num_users]
    (below [num_movies]), and an id no row carries has none. *)
Theorem encoded_ids_are_the_ids_of_the_table (df : list Rating) :
  (forall u : Z,
     (exists r : Rating, r ∈ df /\ userId r = u) <->
     exists i : nat,
       user2user_encoded df !! u = Some i /\ (i < num_users df)%nat) /\
  (forall m : Z,
     (exists r : Rating, r ∈ df /\ movieId r = m) <->
     exists i : nat,
       movie2movie_encoded df !! m = Some i /\ (i < num_movies df)%nat).
Proof. split; intros v; apply (encoded_ids df). Qed.

(** [num_users] and [num_movies] count the distinct user ids and the
    distinct movie ids of the table: they are the lengths of duplicate-free
    lists with the ids of the table as elements. *)
Theorem counts_are_the_numbers_of_distinct_ids (df : list Rating) :
  num_users df = length (user_ids df) /\
  num_movies df = length (movie_ids df) /\
  NoDup (user_ids df) /\ NoDup (movie_ids df) /\
  (forall u : Z, u ∈ user_ids df <-> u ∈ map userId df) /\
  (forall m : Z, m ∈ movie_ids df <-> m ∈ map movieId df).
Proof.
  repeat split; try apply NoDup_unique; try apply elem_of_unique.
  - apply size_encode_dict.
  - apply RecommendFacts.size_decode_dict.
Qed.

End IndexFacts.

(** ** The forward evaluation on a batch *)

Module BatchFacts.

Import Recommender RecommenderFacts.
Import Training (valid_pair).

Lemma embedding_rows (table : list (list R)) (ids : list nat) :
  Forall (fun i => (i < length table)%nat) ids ->
  mapM (fun i => table !! i) ids = Some (map (row table) ids).
Proof.
  intros H. apply mapM_Some_2.
  induction H as [|i ids Hi _ IH]; simpl; constructor; [|exact IH].
  by apply lookup_row.
Qed.

(** The sum the batch shares: [tf.tensordot] of the looked-up user rows
    and movie rows. *)
Lemma batch_rows (net : RecommenderNet) (T : R) (inputs : list (nat * nat)) :
  wf_net net -> Forall (valid_pair net) inputs ->
  add2 (add_scalar T (map (row (user_bias net)) (map fst inputs)))
       (map (row (movie_bias net)) (map snd inputs))
  = map (fun p => [T + entry (user_bias net) p.1
                     + entry (movie_bias net) p.2]) inputs.
Proof.
  intros (_ & HUb & _ & HMb) H. unfold add2, add_scalar.
  induction H as [|[u m] inputs [Hu Hm] _ IH]; simpl; [reflexivity|].
  simpl in Hu, Hm.
  rewrite (bias_row _ _ _ HUb Hu), (bias_row _ _ _ HMb Hm). simpl.
  f_equal. exact IH.
Qed.

Lemma call_batch (net : RecommenderNet) (inputs : list (nat * nat)) :
  wf_net net -> Forall (valid_pair net) inputs ->
  (call inputs net).1 =
    Some (map (fun p =>
                 [sigmoid
                    (sum_list
                       (map (fun q => dot (row (user_embedding net) q.1)
                                          (row (movie_embedding net) q.2))
                            inputs)
                     + entry (user_bias net) p.1
                     + entry (movie_bias net) p.2)])
              inputs).
Proof.
  intros Hwf Hin.
  assert (Hu : Forall (fun i => (i < num_users net)%nat) (map fst inputs)).
  { apply Forall_fmap. eapply Forall_impl; [exact Hin|]. by intros p [? _]. }
  assert (Hm : Forall (fun i => (i < num_movies net)%nat) (map snd inputs)).
  { apply Forall_fmap. eapply Forall_impl; [exact Hin|]. by intros p [_ ?]. }
  pose proof Hwf as ([HU _] & [HUb _] & [HM _] & [HMb _]).
  unfold_call.
  rewrite !embedding_rows by (rewrite ?HU, ?HUb, ?HM, ?HMb; assumption).
  simpl. rewrite (batch_rows net _ inputs Hwf Hin).
  unfold sigmoid2. rewrite map_map. simpl.
  f_equal. apply map_ext. intros p. do 4 f_equal.
  unfold tensordot2. f_equal. clear.
  induction inputs as [|q inputs IH]; simpl; [reflexivity|]. by rewrite IH.
Qed.

(** On a batch of valid pairs [call] returns one row per pair, and the
    row of the pair [(u, m)] is [sigmoid (T + user_bias[u] + movie_bias[m])]
    where [T] is the one number [tf.tensordot] makes of the whole batch:
    the sum, over all rows of the batch, of the dot products of their
    user and movie vectors. *)
Theorem call_on_a_batch (net : RecommenderNet) (inputs : list (nat * nat)) :
  wf_net net -> Forall (valid_pair net) inputs ->
  (call inputs net).1 =
    Some (map (fun p =>
                 [sigmoid
                    (sum_list
                       (map (fun q => dot (row (user_embedding net) q.1)
                                          (row (movie_embedding net) q.2))
                            inputs)
                     + entry (user_bias net) p.1
                     + entry (movie_bias net) p.2)])
              inputs).
Proof. intros Hwf Hin. exact (call_batch net inputs Hwf Hin). Qed.

Lemma call_on_a_batch_witness :
  (call [(0%nat, 0%nat); (1%nat, 1%nat)] Examples.net_2x2).1 =
    Some (map (fun p =>
                 [sigmoid
                    (sum_list
                       (map (fun q =>
                               dot (row (user_embedding Examples.net_2x2) q.1)
                                   (row (movie_embedding Examples.net_2x2) q.2))
                            [(0%nat, 0%nat); (1%nat, 1%nat)])
                     + entry (user_bias Examples.net_2x2) p.1
                     + entry (movie_bias Examples.net_2x2) p.2)])
              [(0%nat, 0%nat); (1%nat, 1%nat)]).
Proof.
  apply (call_on_a_batch Examples.net_2x2 [(0%nat, 0%nat); (1%nat, 1%nat)]).
  - exact wf_net_2x2.
  - repeat constructor; simpl; lia.
Defined.

Lemma call_raises_iff_index (net : RecommenderNet)
    (inputs : list (nat * nat)) :
  wf_net net ->
  Exists (fun p => (num_users net <= p.1)%nat \/
                   (num_movies net <= p.2)%nat) inputs ->
  (call inputs net).1 = None.
Proof.
  intros Hwf Hex. unfold_call.
  destruct (mapM (fun i => user_embedding net !! i) (map fst inputs))
    as [uv|] eqn:Huv; simpl; [|reflexivity].
  destruct (mapM (fun i => user_bias net !! i) (map fst inputs))
    as [ub|] eqn:Hub; simpl; [|reflexivity].
  destruct (mapM (fun i => movie_embedding net !! i) (map snd inputs))
    as [mv|] eqn:Hmv; simpl; [|reflexivity].
  destruct (mapM (fun i => movie_bias net !! i) (map snd inputs))
    as [mb|] eqn:Hmb; simpl; [|reflexivity].
  exfalso.
  pose proof Hwf as ([HU _] & [HUb _] & [HM _] & [HMb _]).
  assert (Hu : is_Some (mapM (fun i => user_embedding net !! i)
                             (map fst inputs))) by (by rewrite Huv).
  assert (Hm : is_Some (mapM (fun i => movie_embedding net !! i)
                             (map snd inputs))) by (by rewrite Hmv).
  apply mapM_is_Some in Hu, Hm.
  rewrite Forall_fmap in Hu, Hm.
  apply Exists_exists in Hex as (p & Hp & Hbad).
  rewrite Forall_forall in Hu, Hm.
  specialize (Hu p Hp). specialize (Hm p Hp). simpl in Hu, Hm.
  apply lookup_lt_is_Some in Hu, Hm. lia.
Qed.

(** [call] raises exactly when some row of its input holds a user index
    or a movie index outside the tables; raising or not, it leaves the
    model as it was. *)
Theorem call_raises_iff_an_index_is_out_of_range
    (net : RecommenderNet) (inputs : list (nat * nat)) :
  wf_net net ->
  ((call inputs net).1 = None <->
   Exists (fun p => (num_users net <= p.1)%nat \/
                    (num_movies net <= p.2)%nat) inputs) /\
  (call inputs net).2 = net.
Proof.
  intros Hwf. split; [|apply call_pure].
  pose proof Hwf as ([HU _] & [HUb _] & [HM _] & [HMb _]).
  split.
  - intros Hnone.
    assert (Hdec : forall p : nat * nat,
              {valid_pair net p} +
              {(num_users net <= p.1)%nat \/ (num_movies net <= p.2)%nat}).
    { intros p. unfold valid_pair.
      destruct (le_lt_dec (num_users net) p.1); [right; by left|].
      destruct (le_lt_dec (num_movies net) p.2); [right; by right|].
      left. by split. }
    destruct (Forall_Exists_dec _ _ Hdec inputs) as [Hall|Hex];
      [|exact Hex].
    rewrite (call_batch net inputs Hwf Hall) in Hnone. discriminate.
  - by apply call_raises_iff_index.
Qed.

Lemma call_raises_iff_witness :
  ((call [(2%nat, 0%nat)] Examples.net_2x2).1 = None <->
   Exists (fun p => (num_users Examples.net_2x2 <= p.1)%nat \/
                    (num_movies Examples.net_2x2 <= p.2)%nat)
          [(2%nat, 0%nat)]) /\
  (call [(2%nat, 0%nat)] Examples.net_2x2).2 = Examples.net_2x2.
Proof.
  apply (call_raises_iff_an_index_is_out_of_range
           Examples.net_2x2 [(2%nat, 0%nat)]).
  exact wf_net_2x2.
Defined.

(** *** Ranking inside a batch *)

Lemma sigmoid_increasing (a b : R) : a < b <-> sigmoid a < sigmoid b.
Proof.
  assert (Hmono : forall c d : R, c < d -> sigmoid c < sigmoid d).
  { intros c d Hcd. unfold sigmoid, Rdiv. rewrite !Rmult_1_l.
    pose proof (exp_pos (- c)). pose proof (exp_pos (- d)).
    assert (exp (- d) < exp (- c)) by (apply exp_increasing; lra).
    apply Rinv_lt_contravar; [|lra].
    apply Rmult_lt_0_compat; lra. }
  split; [apply Hmono|]. intros Hs.
  destruct (Rtotal_order a b) as [Hlt|[->|Hgt]]; [exact Hlt|lra|].
  apply Hmono in Hgt. lra.
Qed.

(** Two rows of one batch that name the same user are ordered as the
    biases of their movies: the dot products enter every row of the batch
    through the same sum and the user bias is shared, so the row of the
    movie with the lower or equal bias never gets the higher score, and a
    higher score means a higher movie bias. *)
Theorem rows_of_one_user_rank_by_movie_bias
    (net : RecommenderNet) (inputs : list (nat * nat))
    (i j u m1 m2 : nat) :
  wf_net net -> Forall (valid_pair net) inputs ->
  inputs !! i = Some (u, m1) -> inputs !! j = Some (u, m2) ->
  exists (out : list (list R)) (s1 s2 : R),
    (call inputs net).1 = Some out /\
    out !! i = Some [s1] /\ out !! j = Some [s2] /\
    (entry (movie_bias net) m1 <= entry (movie_bias net) m2 -> s1 <= s2) /\
    (s1 < s2 -> entry (movie_bias net) m1 < entry (movie_bias net) m2).
Proof.
  intros Hwf Hin Hi Hj.
  eexists _, _, _. split; [apply (call_batch net inputs Hwf Hin)|].
  rewrite !list_lookup_fmap, Hi, Hj. simpl.
  split; [reflexivity|]. split; [reflexivity|]. split.
  - intros [Hlt|Heq].
    + left. apply (proj1 (sigmoid_increasing _ _)). lra.
    + right. f_equal. lra.
  - intros Hs. apply (proj2 (sigmoid_increasing _ _)) in Hs. lra.
Qed.

Lemma rows_of_one_user_rank_by_movie_bias_witness :
  exists (out : list (list R)) (s1 s2 : R),
    (call [(0%nat, 0%nat); (0%nat, 1%nat)] Examples.net_2x2).1 = Some out /\
    out !! 0%nat = Some [s1] /\ out !! 1%nat = Some [s2] /\
    (entry (movie_bias Examples.net_2x2) 0
     <= entry (movie_bias Examples.net_2x2) 1 -> s1 <= s2) /\
    (s1 < s2 -> entry (movie_bias Examples.net_2x2) 0
                < entry (movie_bias Examples.net_2x2) 1).
Proof.
  apply (rows_of_one_user_rank_by_movie_bias Examples.net_2x2
           [(0%nat, 0%nat); (0%nat, 1%nat)] 0 1 0 0 1).
  - exact wf_net_2x2.
  - repeat constructor; simpl; lia.
  - reflexivity.
  - reflexivity.
Defined.

(** *** One pair inside a batch *)

Lemma call_pair_of_rows (net : RecommenderNet) (u m u' m' : nat) :
  wf_net net -> valid_pair net (u, m) -> valid_pair net (u', m') ->
  (call [(u, m); (u', m')] net).1 =
    Some [[sigmoid (dot (row (user_embedding net) u)
                        (row (movie_embedding net) m)
                    + dot (row (user_embedding net) u')
                          (row (movie_embedding net) m')
                    + entry (user_bias net) u
                    + entry (movie_bias net) m)];
          [sigmoid (dot (row (user_embedding net) u)
                        (row (movie_embedding net) m)
                    + dot (row (user_embedding net) u')
                          (row (movie_embedding net) m')
                    + entry (user_bias net) u'
                    + entry (movie_bias net) m')]].
Proof.
  intros Hwf H1 H2.
  rewrite (call_batch net [(u, m); (u', m')] Hwf)
    by (repeat (apply List.Forall_cons; [assumption|]);
        apply List.Forall_nil).
  cbn [map fst snd]. unfold sum_list. cbn [fold_right].
  rewrite Rplus_0_r. reflexivity.
Qed.

(** C1: on an input of more than one row [call] does not return the
    claimed value.  On the two rows [(u, m)] and [(u', m')] the row of
    [(u, m)] is [sigmoid(user_vec[u] . movie_vec[m] + user_vec[u'] .
    movie_vec[m'] + user_bias[u] + movie_bias[m])]: the dot product of
    the other row is added to its own, because [tf.tensordot(.., 2)] sums
    over the rows of the batch as well.  The four tables are left
    unchanged. *)
Theorem call_adds_the_dot_products_of_the_other_rows
    (net : RecommenderNet) (u m u' m' : nat) :
  wf_net net -> valid_pair net (u, m) -> valid_pair net (u', m') ->
  (call [(u, m); (u', m')] net).1 =
    Some [[sigmoid (dot (row (user_embedding net) u)
                        (row (movie_embedding net) m)
                    + dot (row (user_embedding net) u')
                          (row (movie_embedding net) m')
                    + entry (user_bias net) u
                    + entry (movie_bias net) m)];
          [sigmoid (dot (row (user_embedding net) u)
                        (row (movie_embedding net) m)
                    + dot (row (user_embedding net) u')
                          (row (movie_embedding net) m')
                    + entry (user_bias net) u'
                    + entry (movie_bias net) m')]] /\
  (call [(u, m); (u', m')] net).2 = net.
Proof.
  intros Hwf H1 H2. split.
  - exact (call_pair_of_rows net u m u' m' Hwf H1 H2).
  - apply call_pure.
Qed.

Lemma sigmoid_injective (a b : R) : sigmoid a = sigmoid b -> a = b.
Proof.
  intros Heq.
  destruct (Rtotal_order a b) as [Hlt|[Heq'|Hgt]]; [|exact Heq'|].
  - apply (proj1 (sigmoid_increasing _ _)) in Hlt. lra.
  - apply (proj1 (sigmoid_increasing _ _)) in Hgt. lra.
Qed.

Lemma call_adds_the_dot_products_witness :
  ((call [(0%nat, 0%nat); (1%nat, 1%nat)] Examples.net_2x2).1 =
     Some [[sigmoid (dot [1] [3] + dot [2] [4] + 0 + 0)];
           [sigmoid (dot [1] [3] + dot [2] [4] + 1 + 5)]] /\
   (call [(0%nat, 0%nat); (1%nat, 1%nat)] Examples.net_2x2).2
     = Examples.net_2x2) /\
  sigmoid (dot [1] [3] + dot [2] [4] + 0 + 0)
    <> sigmoid (dot [1] [3] + 0 + 0).
Proof.
  split.
  - apply (call_adds_the_dot_products_of_the_other_rows
             Examples.net_2x2 0 0 1 1).
    + exact wf_net_2x2.
    + split; simpl; lia.
    + split; simpl; lia.
  - intros Heq. apply sigmoid_injective in Heq.
    unfold dot, sum_list in Heq. simpl in Heq. lra.
Defined.

Lemma wf_net_zero_row : wf_net MoreExamples.net_zero_row.
Proof. repeat split; simpl; repeat constructor. Qed.

(** C6: a pair with zero vectors and zero biases does not get the score
    1/2 when it is scored together with another pair.  On the two rows
    [(u, m)] and [(u', m')] the row of [(u, m)] is [sigmoid(user_vec[u'] .
    movie_vec[m'])], the dot product of the other row. *)
Theorem zero_pair_in_a_batch_scores_the_other_row
    (net : RecommenderNet) (u m u' m' : nat) :
  wf_net net -> valid_pair net (u, m) -> valid_pair net (u', m') ->
  Forall (fun x => x = 0) (row (user_embedding net) u) ->
  Forall (fun x => x = 0) (row (movie_embedding net) m) ->
  entry (user_bias net) u = 0 ->
  entry (movie_bias net) m = 0 ->
  exists last : list R,
    (call [(u, m); (u', m')] net).1 =
      Some [[sigmoid (dot (row (user_embedding net) u')
                          (row (movie_embedding net) m'))];
            last].
Proof.
  intros Hwf H1 H2 Hzu _ Hbu Hbm.
  rewrite (call_pair_of_rows net u m u' m' Hwf H1 H2).
  rewrite (RecommenderFacts.dot_zero_l _ _ Hzu), Hbu, Hbm.
  rewrite Rplus_0_l, !Rplus_0_r. eexists. reflexivity.
Qed.

Lemma zero_pair_in_a_batch_witness :
  (exists last : list R,
     (call [(0%nat, 0%nat); (1%nat, 1%nat)] MoreExamples.net_zero_row).1 =
       Some [[sigmoid (dot [1] [1])]; last]) /\
  sigmoid (dot [1] [1]) <> 1 / 2.
Proof.
  split.
  - apply (zero_pair_in_a_batch_scores_the_other_row
             MoreExamples.net_zero_row 0 0 1 1).
    + exact wf_net_zero_row.
    + split; simpl; lia.
    + split; simpl; lia.
    + simpl. repeat constructor.
    + simpl. repeat constructor.
    + reflexivity.
    + reflexivity.
  - rewrite <- sigmoid_0. intros Heq. apply sigmoid_injective in Heq.
    unfold dot, sum_list in Heq. simpl in Heq. lra.
Defined.

(** *** [predict] *)

Lemma concat_batches_fuel {A} (fuel size : nat) (l : list A) :
  (0 < size)%nat -> (length l <= fuel)%nat ->
  concat (batches_fuel fuel size l) = l /\
  Forall (fun b => (0 < length b <= size)%nat) (batches_fuel fuel size l).
Proof.
  intros Hsize. revert l.
  induction fuel as [|fuel IH]; intros l Hl; simpl.
  - destruct l; simpl in Hl; [by split|lia].
  - destruct l as [|a l']; [by split|].
    destruct (IH (drop size (a :: l'))) as [Hc Hf].
    { rewrite length_drop. simpl in *. lia. }
    split.
    + simpl. rewrite Hc. apply take_drop.
    + constructor; [|exact Hf].
      rewrite length_take. simpl. lia.
Qed.

Lemma length_flatten_rows {A} (g : A -> R) (l : list A) :
  length (concat (map (fun p => [g p]) l)) = length l.
Proof. induction l as [|p l IH]; simpl; [reflexivity|]. by rewrite IH. Qed.

Lemma predict_batches_ok (net : RecommenderNet)
    (bs : list (list (nat * nat))) :
  wf_net net -> Forall (Forall (valid_pair net)) bs ->
  exists out : list (list R),
    predict_batches bs net = (Some out, net) /\
    length (flatten out) = length (concat bs) /\
    Forall (Forall (fun s => 0 < s < 1)) out.
Proof.
  intros Hwf Hbs.
  induction Hbs as [|b bs Hb _ (out & Hout & Hlen & Hrange)]; simpl.
  - exists []. by repeat split.
  - unfold mbind, call_bind.
    pose proof (call_batch net b Hwf Hb) as H1.
    pose proof (call_pure b net) as H2.
    destruct (call b net) as [o net'] eqn:Hcall. simpl in H1, H2.
    subst o net'. rewrite Hout. simpl.
    eexists. split; [reflexivity|]. split.
    + unfold flatten in *. rewrite concat_app, !length_app, Hlen.
      f_equal. apply length_flatten_rows.
    + apply Forall_app. split; [|exact Hrange].
      apply Forall_fmap, Forall_forall. intros p _. simpl.
      repeat constructor; apply sigmoid_range.
Qed.

Lemma predict_batches_raises (net : RecommenderNet)
    (bs : list (list (nat * nat))) :
  wf_net net ->
  Exists (Exists (fun p => (num_users net <= p.1)%nat \/
                           (num_movies net <= p.2)%nat)) bs ->
  (predict_batches bs net).1 = None.
Proof.
  intros Hwf Hbs.
  induction Hbs as [b bs Hb|b bs _ IH]; simpl; unfold mbind, call_bind.
  - apply (call_raises_iff_index net b Hwf) in Hb.
    destruct (call b net) as [[o|] net']; simpl in *; [discriminate|done].
  - pose proof (call_pure b net) as H2.
    destruct (call b net) as [[o|] net']; simpl in *; [|done].
    subst net'.
    destruct (predict_batches bs net) as [[os|] net'']; simpl in *;
      [discriminate|done].
Qed.

Lemma batches_32 (pairs : list (nat * nat)) :
  concat (batches 32 pairs) = pairs.
Proof.
  unfold batches.
  destruct (concat_batches_fuel (length pairs) 32 pairs) as [Hc _];
    [lia|lia|exact Hc].
Qed.

Lemma predict_nonempty (pairs : list (nat * nat)) :
  pairs <> [] -> predict pairs = predict_batches (batches 32 pairs).
Proof. by destruct pairs. Qed.

Lemma ratings_ok
    (net : RecommenderNet) (pairs : list (nat * nat)) :
  wf_net net -> pairs <> [] -> Forall (valid_pair net) pairs ->
  exists scores : list R,
    Recommend.ratings net pairs = Some scores /\
    length scores = length pairs /\
    Forall (fun s => 0 < s < 1) scores.
Proof.
  intros Hwf Hne Hin. unfold Recommend.ratings.
  rewrite (predict_nonempty pairs Hne).
  destruct (predict_batches_ok net (batches 32 pairs) Hwf)
    as (out & Hout & Hlen & Hrange).
  { apply Forall_forall. intros b Hb. apply Forall_forall. intros p Hp.
    rewrite Forall_forall in Hin. apply Hin. rewrite <- (batches_32 pairs).
    apply list_elem_of_In, in_concat. exists b.
    split; by apply list_elem_of_In. }
  rewrite Hout. simpl. eexists. split; [reflexivity|].
  split; [by rewrite Hlen, batches_32|].
  unfold flatten. apply Forall_concat. exact Hrange.
Qed.

(** [model.predict(..).flatten()] on an array of one or more valid pairs
    returns one score for each row, every one between 0 and 1. *)
Theorem predict_scores_every_row
    (net : RecommenderNet) (pairs : list (nat * nat)) :
  wf_net net -> pairs <> [] -> Forall (valid_pair net) pairs ->
  exists scores : list R,
    Recommend.ratings net pairs = Some scores /\
    length scores = length pairs /\
    Forall (fun s => 0 <= s <= 1) scores.
Proof.
  intros Hwf Hne Hin.
  destruct (ratings_ok net pairs Hwf Hne Hin) as (scores & Hs & Hl & Hr).
  exists scores. split; [exact Hs|]. split; [exact Hl|].
  eapply Forall_impl; [exact Hr|]. intros x Hx. simpl in Hx. lra.
Qed.

Lemma predict_scores_every_row_witness :
  exists scores : list R,
    Recommend.ratings Examples.net_2x2 [(1%nat, 0%nat); (0%nat, 1%nat)]
      = Some scores /\
    length scores = length [(1%nat, 0%nat); (0%nat, 1%nat)] /\
    Forall (fun s => 0 <= s <= 1) scores.
Proof.
  apply (predict_scores_every_row Examples.net_2x2
           [(1%nat, 0%nat); (0%nat, 1%nat)]).
  - exact wf_net_2x2.
  - discriminate.
  - repeat constructor; simpl; lia.
Defined.

(** [model.predict] raises exactly when the array has no rows or some row
    of it holds an index outside the tables, in whichever batch the row
    falls. *)
Theorem predict_raises_iff_empty_or_out_of_range
    (net : RecommenderNet) (pairs : list (nat * nat)) :
  wf_net net ->
  (Recommend.ratings net pairs = None <->
   pairs = [] \/
   Exists (fun p => (num_users net <= p.1)%nat \/
                    (num_movies net <= p.2)%nat) pairs).
Proof.
  intros Hwf. split.
  - intros Hnone.
    destruct pairs as [|p0 pairs']; [by left|right].
    assert (Hdec : forall p : nat * nat,
              {valid_pair net p} +
              {(num_users net <= p.1)%nat \/ (num_movies net <= p.2)%nat}).
    { intros p. unfold valid_pair.
      destruct (le_lt_dec (num_users net) p.1); [right; by left|].
      destruct (le_lt_dec (num_movies net) p.2); [right; by right|].
      left. by split. }
    destruct (Forall_Exists_dec _ _ Hdec (p0 :: pairs')) as [Hall|Hex];
      [|exact Hex].
    destruct (ratings_ok net (p0 :: pairs') Hwf ltac:(discriminate) Hall)
      as (s & Hs & _).
    rewrite Hs in Hnone. discriminate.
  - intros [->|Hex]; [reflexivity|].
    assert (Hne : pairs <> []) by (intros ->; by apply Exists_nil in Hex).
    unfold Recommend.ratings. rewrite (predict_nonempty pairs Hne).
    rewrite (predict_batches_raises net (batches 32 pairs) Hwf);
      [reflexivity|].
    apply Exists_exists in Hex as (p & Hp & Hbad).
    rewrite <- (batches_32 pairs) in Hp.
    apply list_elem_of_In, in_concat in Hp as (b & Hb & Hpb).
    apply Exists_exists. exists b. split; [by apply list_elem_of_In|].
    apply Exists_exists. exists p. split; [by apply list_elem_of_In|done].
Qed.

Lemma predict_raises_iff_witness :
  Recommend.ratings Examples.net_2x2 [(0%nat, 0%nat); (0%nat, 2%nat)] = None
  <-> [(0%nat, 0%nat); (0%nat, 2%nat)] = [] \/
      Exists (fun p => (num_users Examples.net_2x2 <= p.1)%nat \/
                       (num_movies Examples.net_2x2 <= p.2)%nat)
             [(0%nat, 0%nat); (0%nat, 2%nat)].
Proof.
  apply (predict_raises_iff_empty_or_out_of_range Examples.net_2x2).
  exact wf_net_2x2.
Defined.

Lemma batches_one (pairs : list (nat * nat)) :
  (0 < length pairs <= 32)%nat -> batches 32 pairs = [pairs].
Proof.
  intros Hlen. unfold batches.
  destruct pairs as [|p pairs]; simpl in *; [lia|].
  rewrite take_ge, drop_ge by (simpl; lia).
  f_equal. by destruct (length pairs).
Qed.

(** An array of at most 32 pairs is scored as one batch: the score
    [predict] gives a pair is [sigmoid (T + user_bias[u] + movie_bias[m])]
    with [T] the sum of the dot products of all the pairs of the array,
    so that it is the match score of the pair only when the pair is
    scored alone. *)
Theorem predict_on_one_batch
    (net : RecommenderNet) (pairs : list (nat * nat)) :
  wf_net net -> Forall (valid_pair net) pairs ->
  (0 < length pairs <= 32)%nat ->
  Recommend.ratings net pairs =
    Some (map (fun p =>
                 sigmoid
                   (sum_list
                      (map (fun q => dot (row (user_embedding net) q.1)
                                         (row (movie_embedding net) q.2))
                           pairs)
                    + entry (user_bias net) p.1
                    + entry (movie_bias net) p.2))
              pairs).
Proof.
  intros Hwf Hin Hlen. unfold Recommend.ratings.
  rewrite predict_nonempty by (intros ->; simpl in Hlen; lia).
  rewrite (batches_one pairs Hlen). simpl. unfold mbind, call_bind.
  pose proof (call_batch net pairs Hwf Hin) as H1.
  pose proof (call_pure pairs net) as H2.
  destruct (call pairs net) as [o net'] eqn:Hcall. simpl in H1, H2.
  subst o net'. simpl. f_equal. rewrite app_nil_r. unfold flatten.
  generalize (sum_list
                (map (fun q => dot (row (user_embedding net) q.1)
                                   (row (movie_embedding net) q.2)) pairs)).
  intros T. clear. induction pairs as [|p pairs IH]; simpl; [reflexivity|].
  by rewrite IH.
Qed.

Lemma predict_on_one_batch_witness :
  Recommend.ratings Examples.net_2x2 [(0%nat, 0%nat); (1%nat, 1%nat)] =
    Some (map (fun p =>
                 sigmoid
                   (sum_list
                      (map (fun q =>
                              dot (row (user_embedding Examples.net_2x2) q.1)
                                  (row (movie_embedding Examples.net_2x2) q.2))
                           [(0%nat, 0%nat); (1%nat, 1%nat)])
                    + entry (user_bias Examples.net_2x2) p.1
                    + entry (movie_bias Examples.net_2x2) p.2))
              [(0%nat, 0%nat); (1%nat, 1%nat)]).
Proof.
  apply (predict_on_one_batch Examples.net_2x2
           [(0%nat, 0%nat); (1%nat, 1%nat)]).
  - exact wf_net_2x2.
  - repeat constructor; simpl; lia.
  - simpl. lia.
Defined.

End BatchFacts.

(** ** The ranking and the recommendation *)

Module RankingFacts.

Import Ratings Recommend Ranking Training.

Section Top.

Variable argsort : list R -> list nat.

Lemma top_facts (scores : list R) :
  Permutation (argsort scores) (seq 0 (length scores)) ->
  length (top_ratings_indices argsort scores) = min 10 (length scores) /\
  NoDup (top_ratings_indices argsort scores) /\
  Forall (fun i => (i < length scores)%nat)
         (top_ratings_indices argsort scores).
Proof.
  intros Hperm. unfold top_ratings_indices.
  assert (Hlen : length (argsort scores) = length scores)
    by (by rewrite (Permutation_length Hperm), length_seq).
  assert (Hnd : NoDup (argsort scores))
    by (rewrite Hperm; apply NoDup_seq).
  split; [|split].
  - rewrite length_reverse, length_drop, Hlen. lia.
  - rewrite reverse_Permutation.
    apply (sublist_NoDup _ (argsort scores)); [exact Hnd|apply sublist_drop].
  - apply Forall_forall. intros i Hi.
    rewrite elem_of_reverse in Hi.
    apply (subseteq_drop _ _ i) in Hi.
    rewrite Hperm in Hi. apply elem_of_seq in Hi. lia.
Qed.

(** The ranking holds [min(10, n)] positions of the score array, each
    inside the array and none twice. *)
Theorem top_indices_are_distinct_positions (scores : list R) :
  Permutation (argsort scores) (seq 0 (length scores)) ->
  length (top_ratings_indices argsort scores) = min 10 (length scores) /\
  NoDup (top_ratings_indices argsort scores) /\
  Forall (fun i => (i < length scores)%nat)
         (top_ratings_indices argsort scores).
Proof. intros Hperm. exact (top_facts scores Hperm). Qed.

Lemma top_lookup (scores : list R) (i a : nat) :
  top_ratings_indices argsort scores !! i = Some a ->
  exists q : nat,
    argsort scores !! q = Some a /\
    (length (argsort scores) - 10 <= q)%nat /\
    q = (length (argsort scores) - S i)%nat /\
    (i < length (argsort scores))%nat.
Proof.
  unfold top_ratings_indices. intros H.
  apply reverse_lookup_Some in H as [H Hi].
  rewrite lookup_drop in H. rewrite length_drop in H, Hi.
  eexists. split; [exact H|]. lia.
Qed.

(** When [argsort] lists the positions in ascending order of their
    scores, the ranking runs from the highest score downwards, and no
    position left out of it has a score above one that is in it. *)
Theorem top_indices_hold_the_highest_scores (scores : list R) :
  Permutation (argsort scores) (seq 0 (length scores)) ->
  ascending scores (argsort scores) ->
  (forall i j a b : nat,
     (i <= j)%nat ->
     top_ratings_indices argsort scores !! i = Some a ->
     top_ratings_indices argsort scores !! j = Some b ->
     nth b scores 0 <= nth a scores 0) /\
  (forall a c : nat,
     a ∈ top_ratings_indices argsort scores ->
     (c < length scores)%nat ->
     c ∉ top_ratings_indices argsort scores ->
     nth c scores 0 <= nth a scores 0).
Proof.
  intros Hperm Hasc. split.
  - intros i j a b Hij Ha Hb.
    apply top_lookup in Ha as (qa & Ha & _ & -> & Hi).
    apply top_lookup in Hb as (qb & Hb & _ & -> & Hj).
    eapply Hasc; [|exact Hb|exact Ha]. lia.
  - intros a c Ha Hc Hout.
    apply list_elem_of_lookup in Ha as [i Ha].
    apply top_lookup in Ha as (qa & Ha & Hqa & _ & _).
    assert (Hcin : c ∈ argsort scores)
      by (rewrite Hperm; apply elem_of_seq; lia).
    apply list_elem_of_lookup in Hcin as [qc Hqc].
    destruct (le_lt_dec (length (argsort scores) - 10) qc) as [Hge|Hlt].
    + exfalso. apply Hout. unfold top_ratings_indices.
      rewrite elem_of_reverse. apply list_elem_of_lookup.
      exists (qc - (length (argsort scores) - 10))%nat.
      rewrite lookup_drop. rewrite <- Hqc. f_equal. lia.
    + eapply Hasc; [|exact Hqc|exact Ha]. lia.
Qed.

End Top.

(** *** The [argsort] of the examples sorts *)

Lemma insert_by_elem (key : nat -> R) (i x : nat) (l : list nat) :
  x ∈ Examples.insert_by key i l -> x = i \/ x ∈ l.
Proof.
  intros H.
  rewrite (RecommendFacts.insert_by_perm key i l) in H.
  by apply elem_of_cons in H.
Qed.

Lemma insert_by_sorted (key : nat -> R) (i : nat) (l : list nat) :
  StronglySorted (fun a b => key a <= key b) l ->
  StronglySorted (fun a b => key a <= key b) (Examples.insert_by key i l).
Proof.
  induction 1 as [|j l Hs IH Hj]; simpl.
  - repeat constructor.
  - destruct (Rle_dec (key i) (key j)) as [Hle|Hgt].
    + constructor; [by constructor|].
      constructor; [exact Hle|].
      eapply Forall_impl; [exact Hj|]. intros x Hx. simpl in *. lra.
    + constructor; [exact IH|].
      apply Forall_forall. intros x Hx.
      apply insert_by_elem in Hx as [->|Hx]; [lra|].
      rewrite Forall_forall in Hj. by apply Hj.
Qed.

Lemma sorted_lookup (key : nat -> R) (l : list nat) (i j a b : nat) :
  StronglySorted (fun a b => key a <= key b) l ->
  (i <= j)%nat -> l !! i = Some a -> l !! j = Some b -> key a <= key b.
Proof.
  intros Hs. revert i j.
  induction Hs as [|x l Hs IH Hx]; intros i j Hij Ha Hb.
  - by rewrite lookup_nil in Ha.
  - destruct i as [|i], j as [|j]; simpl in *; try lia.
    + injection Ha as <-. injection Hb as <-. lra.
    + injection Ha as <-. rewrite Forall_forall in Hx. apply Hx.
      apply list_elem_of_lookup. by exists j.
    + apply (IH i j); [lia|done|done].
Qed.

Lemma insertion_argsort_sorts : sorts Examples.insertion_argsort.
Proof.
  split; [exact RecommendFacts.insertion_argsort_perm|].
  intros scores i j a b Hij Ha Hb.
  apply (sorted_lookup (fun i => nth i scores 0)
           (Examples.insertion_argsort scores) i j a b); try done.
  unfold Examples.insertion_argsort.
  induction (seq 0 (length scores)) as [|k l IH]; simpl.
  - constructor.
  - by apply insert_by_sorted.
Qed.

Lemma top_indices_are_distinct_positions_witness :
  length (top_ratings_indices Examples.insertion_argsort [1; 3; 2])
    = min 10 (length [1; 3; 2]) /\
  NoDup (top_ratings_indices Examples.insertion_argsort [1; 3; 2]) /\
  Forall (fun i => (i < length [1; 3; 2])%nat)
         (top_ratings_indices Examples.insertion_argsort [1; 3; 2]).
Proof.
  apply (top_indices_are_distinct_positions
           Examples.insertion_argsort [1; 3; 2]).
  apply RecommendFacts.insertion_argsort_perm.
Defined.

Lemma top_indices_hold_the_highest_scores_witness :
  (forall i j a b : nat,
     (i <= j)%nat ->
     top_ratings_indices Examples.insertion_argsort [1; 3; 2] !! i = Some a ->
     top_ratings_indices Examples.insertion_argsort [1; 3; 2] !! j = Some b ->
     nth b [1; 3; 2] 0 <= nth a [1; 3; 2] 0) /\
  (forall a c : nat,
     a ∈ top_ratings_indices Examples.insertion_argsort [1; 3; 2] ->
     (c < length [1; 3; 2])%nat ->
     c ∉ top_ratings_indices Examples.insertion_argsort [1; 3; 2] ->
     nth c [1; 3; 2] 0 <= nth a [1; 3; 2] 0).
Proof.
  apply (top_indices_hold_the_highest_scores
           Examples.insertion_argsort [1; 3; 2]).
  - apply RecommendFacts.insertion_argsort_perm.
  - apply insertion_argsort_sorts.
Defined.

(** *** The candidates *)

Lemma session_ids_iff (s : Session) (x : Z) :
  x ∈ session_ids s <->
  (exists mv : Movie, mv ∈ movie_df s /\ movie_movieId mv = x) /\
  (exists r : Rating, r ∈ df s /\ movieId r = x) /\
  unrated s x.
Proof.
  unfold session_ids, candidate_ids.
  rewrite elem_of_elements, elem_of_intersection, elem_of_list_to_set.
  rewrite elem_of_dom. unfold movie2movie_encoded, movie_ids.
  rewrite IndexFacts.encode_dict_is_Some.
  unfold not_watched_column, movies_watched_by_user, unrated.
  rewrite !list_elem_of_fmap. split.
  - intros [(mv & -> & Hmv) (r & Hx & Hr)].
    apply list_elem_of_filter in Hmv as [Hnot Hmv].
    split; [by exists mv|]. split; [by exists r|].
    intros r' Hr' Hu Hm. apply Hnot. rewrite <- Hm.
    apply (list_elem_of_fmap_2 movieId), list_elem_of_filter. by split.
  - intros [(mv & Hmv & <-) [(r & Hr & Hx) Hun]].
    split; [|by exists r].
    exists mv. split; [reflexivity|].
    apply list_elem_of_filter. split; [|exact Hmv].
    intros (r' & Hm & Hr')%list_elem_of_fmap.
    apply list_elem_of_filter in Hr' as [Hu Hr'].
    by apply (Hun r' Hr' Hu).
Qed.

(** The candidates are exactly the movies of [movies.csv] that some user
    has rated and the user of the session has not, each listed once. *)
Theorem candidates_are_the_unrated_rated_movies (s : Session) :
  NoDup (session_ids s) /\
  forall x : Z,
    x ∈ session_ids s <->
    (exists mv : Movie, mv ∈ movie_df s /\ movie_movieId mv = x) /\
    (exists r : Rating, r ∈ df s /\ movieId r = x) /\
    unrated s x.
Proof.
  split; [|apply session_ids_iff].
  unfold session_ids, candidate_ids. apply NoDup_elements.
Qed.

(** *** The whole cell *)

Lemma mapM_pointwise {A B} (f : A -> option B) (g : A -> B) (l : list A) :
  Forall (fun a => f a = Some (g a)) l -> mapM f l = Some (map g l).
Proof.
  intros H. apply mapM_Some_2.
  induction H; simpl; by constructor.
Qed.

Lemma lookup_nth {A} (l : list A) (i : nat) (d : A) :
  (i < length l)%nat -> l !! i = Some (nth i l d).
Proof.
  intros Hi. destruct (lookup_lt_is_Some_2 l i Hi) as [x Hx].
  rewrite Hx. f_equal. symmetry. by apply nth_lookup_Some.
Qed.

Lemma user_encoder_present (s : Session) :
  (exists r : Rating, r ∈ df s /\ userId r = user_id s) ->
  exists u : nat,
    user2user_encoded (df s) !! user_id s = Some u /\
    (u < Ratings.num_users (df s))%nat.
Proof.
  intros (r & Hr & Hu).
  unfold user2user_encoded, Ratings.num_users, user2user_encoded, user_ids.
  rewrite IndexFacts.size_encode_dict.
  destruct (proj2 (IndexFacts.encode_dict_is_Some (map userId (df s))
                     (user_id s))) as [u Hlook].
  { rewrite <- Hu. by apply (list_elem_of_fmap_2 userId). }
  exists u. split; [exact Hlook|].
  apply RecommendFacts.encode_dict_lookup in Hlook.
  by eapply lookup_lt_Some.
Qed.

Lemma user_encoder_absent (s : Session) :
  (forall r : Rating, r ∈ df s -> userId r ≠ user_id s) ->
  user2user_encoded (df s) !! user_id s = None.
Proof.
  intros Habs. apply eq_None_not_Some. intros Hsome.
  apply IndexFacts.encode_dict_is_Some in Hsome.
  apply list_elem_of_fmap in Hsome as (r & Hu & Hr).
  by apply (Habs r Hr).
Qed.

Section Cell.

Variable argsort : list R -> list nat.

Lemma recommend_total (s : Session) :
  lists_positions argsort ->
  built_for (df s) (model s) ->
  (exists r : Rating, r ∈ df s /\ userId r = user_id s) ->
  session_ids s <> [] ->
  exists recs : list Z,
    recommend argsort s = Some (map Some recs) /\
    length recs = min 10 (length (session_ids s)) /\
    NoDup recs /\
    Forall (fun x => x ∈ session_ids s) recs.
Proof.
  intros Hargsort (Hwf & Hnu & Hnm & _) Huser Hne.
  destruct (user_encoder_present s Huser) as (u & Hu & Hult).
  set (ids := session_ids s) in *.
  set (enc := movie2movie_encoded (df s)).
  assert (Hids : Forall (fun x => exists i : nat,
                    enc !! x = Some i /\
                    (i < Ratings.num_movies (df s))%nat) ids).
  { apply Forall_forall. intros x Hx.
    by destruct (RecommendFacts.session_ids_spec s x Hx) as [_ Hi]. }
  set (ms := map (fun x => default O (enc !! x)) ids).
  assert (Hnw : session_not_watched s = map Some ms).
  { unfold session_not_watched, movies_not_watched, ms. fold ids enc.
    rewrite map_map. apply Forall_fmap_ext_1.
    eapply Forall_impl; [exact Hids|].
    intros x (i & Hi & _). simpl. by rewrite Hi. }
  assert (Hpairs : session_pairs s = Some (map (pair u) ms)).
  { unfold session_pairs, user_movie_array. rewrite Hu, Hnw. simpl.
    rewrite (mapM_pointwise (fun e : option nat => e) (fun e => default O e));
      [|apply Forall_fmap, Forall_forall; by intros].
    simpl. by rewrite !map_map. }
  assert (Hvalid : Forall (valid_pair (model s)) (map (pair u) ms)).
  { apply Forall_fmap. unfold ms. apply Forall_fmap.
    eapply Forall_impl; [exact Hids|].
    intros x (i & Hi & Hlt). unfold valid_pair. simpl.
    rewrite Hi. simpl. lia. }
  assert (Hrows : map (pair u) ms <> []).
  { unfold ms. destruct ids; [done|discriminate]. }
  destruct (BatchFacts.ratings_ok (model s) _ Hwf Hrows Hvalid)
    as (scores & Hscores & Hlen & _).
  rewrite length_map in Hlen. unfold ms in Hlen.
  rewrite length_map in Hlen. fold ids in Hlen.
  destruct (top_facts argsort scores (Hargsort scores))
    as (Htl & Htnd & Htlt).
  set (top := top_ratings_indices argsort scores) in *.
  exists (map (fun pos => nth pos ids 0%Z) top).
  assert (Hpos : forall pos : nat, pos ∈ top ->
            ids !! pos = Some (nth pos ids 0%Z)).
  { intros pos Hin. rewrite Forall_forall in Htlt.
    apply lookup_nth. specialize (Htlt pos Hin). simpl in Htlt.
    unfold ids in *. lia. }
  split; [|split; [|split]].
  - unfold recommend, session_top. rewrite Hpairs. simpl.
    rewrite Hscores. simpl. fold top.
    unfold recommended_movie_ids. rewrite map_map.
    apply mapM_pointwise, Forall_forall. intros pos Hin.
    unfold session_not_watched, movies_not_watched. fold ids enc.
    rewrite list_lookup_fmap, (Hpos pos Hin). simpl. f_equal.
    assert (Hx : nth pos ids 0%Z ∈ ids)
      by (apply list_elem_of_lookup; exists pos; by apply Hpos).
    rewrite Forall_forall in Hids.
    destruct (Hids _ Hx) as (i & Hi & _). rewrite Hi. simpl.
    by apply RecommendFacts.decode_encode in Hi as [Hd _].
  - rewrite length_map, Htl, Hlen. reflexivity.
  - apply NoDup_fmap_2_strong; [|exact Htnd].
    intros p q Hp Hq Heq.
    assert (Hnd : NoDup ids)
      by (unfold ids, session_ids, candidate_ids; apply NoDup_elements).
    apply (NoDup_lookup ids p q (nth p ids 0%Z) Hnd); [by apply Hpos|].
    rewrite Heq. by apply Hpos.
  - apply Forall_fmap, Forall_forall. intros pos Hin. simpl.
    apply list_elem_of_lookup. exists pos. by apply Hpos.
Qed.

Lemma recommend_no_candidates (s : Session) :
  (exists r : Rating, r ∈ df s /\ userId r = user_id s) ->
  session_ids s = [] ->
  recommend argsort s = None.
Proof.
  intros Huser Hnil.
  destruct (user_encoder_present s Huser) as (u & Hu & _).
  assert (Hpairs : session_pairs s = Some []).
  { unfold session_pairs, user_movie_array. rewrite Hu.
    unfold session_not_watched, movies_not_watched. by rewrite Hnil. }
  unfold recommend, session_top. by rewrite Hpairs.
Qed.

(** For a user of the ratings table and a model built for the table: when
    there is at least one candidate the cell does not raise and recommends
    [min(10, c)] movies, where [c] is the number of candidates, all of them
    candidates and no movie twice; when there is no candidate,
    [model.predict] gets an array without rows and the cell raises. *)
Theorem recommend_returns_distinct_candidates (s : Session) :
  lists_positions argsort ->
  built_for (df s) (model s) ->
  (exists r : Rating, r ∈ df s /\ userId r = user_id s) ->
  (session_ids s <> [] ->
   exists recs : list Z,
     recommend argsort s = Some (map Some recs) /\
     length recs = min 10 (length (session_ids s)) /\
     NoDup recs /\
     Forall (fun x => x ∈ session_ids s) recs) /\
  (session_ids s = [] -> recommend argsort s = None).
Proof.
  intros Hargsort Hbuilt Huser. split.
  - exact (recommend_total s Hargsort Hbuilt Huser).
  - exact (recommend_no_candidates s Huser).
Qed.

(** For a user id that no row of the ratings table carries,
    [user2user_encoded.get] gives [None] and the cell gets no array of
    index pairs to score: it recommends nothing and fails. *)
Theorem recommend_fails_for_an_unknown_user (s : Session) :
  (forall r : Rating, r ∈ df s -> userId r ≠ user_id s) ->
  user2user_encoded (df s) !! user_id s = None /\
  session_pairs s = None /\
  recommend argsort s = None.
Proof.
  intros Habs. pose proof (user_encoder_absent s Habs) as Hnone.
  assert (Hpairs : session_pairs s = None).
  { unfold session_pairs, user_movie_array. by rewrite Hnone. }
  split; [exact Hnone|]. split; [exact Hpairs|].
  unfold recommend, session_top. by rewrite Hpairs.
Qed.

End Cell.

Lemma built_for_net_50 : built_for Examples.df_3 MoreExamples.net_50.
Proof.
  split; [|split; [|split]]; try (vm_compute; reflexivity).
  split; [|split; [|split]].
  - apply (SentimentFacts.has_shape_replicate 2 50).
  - split; [reflexivity|repeat constructor].
  - apply (SentimentFacts.has_shape_replicate 2 50).
  - split; [reflexivity|repeat constructor].
Qed.

(** User 7 of the example table has rated every movie: no candidate is
    left and the cell raises. *)
Lemma recommend_session_7 :
  session_ids MoreExamples.session_7 = [] /\
  recommend Examples.insertion_argsort MoreExamples.session_7 = None.
Proof.
  assert (Hnil : session_ids MoreExamples.session_7 = [])
    by (vm_compute; reflexivity).
  split; [exact Hnil|].
  apply recommend_no_candidates; [|exact Hnil].
  exists (mkRating 7 10 4 0). split; [|reflexivity].
  simpl. unfold Examples.df_3. rewrite !elem_of_cons. tauto.
Qed.

Lemma recommend_returns_distinct_candidates_witness :
  (session_ids MoreExamples.session_50 <> [] ->
   exists recs : list Z,
     recommend Examples.insertion_argsort MoreExamples.session_50
       = Some (map Some recs) /\
     length recs = min 10 (length (session_ids MoreExamples.session_50)) /\
     NoDup recs /\
     Forall (fun x => x ∈ session_ids MoreExamples.session_50) recs) /\
  (session_ids MoreExamples.session_50 = [] ->
   recommend Examples.insertion_argsort MoreExamples.session_50 = None).
Proof.
  apply (recommend_returns_distinct_candidates
           Examples.insertion_argsort MoreExamples.session_50).
  - exact RecommendFacts.insertion_argsort_perm.
  - exact built_for_net_50.
  - exists (mkRating 9 10 5 2). split; [|reflexivity].
    simpl. unfold Examples.df_3. rewrite !elem_of_cons. tauto.
Defined.

Lemma recommend_fails_for_an_unknown_user_witness :
  user2user_encoded (df MoreExamples.session_absent)
    !! user_id MoreExamples.session_absent = None /\
  session_pairs MoreExamples.session_absent = None /\
  recommend Examples.insertion_argsort MoreExamples.session_absent = None.
Proof.
  apply (recommend_fails_for_an_unknown_user
           Examples.insertion_argsort MoreExamples.session_absent).
  intros r Hr. simpl in *. unfold Examples.df_3 in Hr.
  repeat (apply elem_of_cons in Hr as [->|Hr]; [simpl; discriminate|]).
  by apply elem_of_nil in Hr.
Defined.

End RankingFacts.

(** ** The training data *)

Module TrainingFacts.

Import Ratings Training.

Lemma fold_min_attained (l : list R) (x : R) : fold_left Rmin l x ∈ x :: l.
Proof.
  revert x. induction l as [|a l IH]; intros x; simpl.
  - rewrite elem_of_cons. by left.
  - specialize (IH (Rmin x a)). apply elem_of_cons in IH as [->|IH].
    + unfold Rmin. destruct (Rle_dec x a); rewrite !elem_of_cons; tauto.
    + rewrite !elem_of_cons. tauto.
Qed.

Lemma fold_max_attained (l : list R) (x : R) : fold_left Rmax l x ∈ x :: l.
Proof.
  revert x. induction l as [|a l IH]; intros x; simpl.
  - rewrite elem_of_cons. by left.
  - specialize (IH (Rmax x a)). apply elem_of_cons in IH as [->|IH].
    + unfold Rmax. destruct (Rle_dec x a); rewrite !elem_of_cons; tauto.
    + rewrite !elem_of_cons. tauto.
Qed.

(** [min_rating] and [max_rating] are ratings of the table, and every
    rating of the table lies between them; on a table without rows
    [min] and [max] raise. *)
Theorem min_and_max_rating_are_attained_bounds (df : list Rating) :
  (df = [] ->
   py_min (map rating df) = None /\ py_max (map rating df) = None) /\
  (df <> [] ->
   exists lo hi : R,
     py_min (map rating df) = Some lo /\
     py_max (map rating df) = Some hi /\
     lo ∈ map rating df /\ hi ∈ map rating df /\
     forall r : Rating, r ∈ df -> lo <= rating r <= hi).
Proof.
  split.
  - intros ->. by split.
  - intros Hne. destruct df as [|r0 df]; [done|]. simpl.
    eexists _, _. split; [reflexivity|]. split; [reflexivity|].
    split; [apply fold_min_attained|]. split; [apply fold_max_attained|].
    intros r Hr.
    assert (Hin : rating r ∈ map rating (r0 :: df))
      by (by apply (list_elem_of_fmap_2 rating)).
    split.
    + by apply (RatingsFacts.py_min_le (map rating (r0 :: df))).
    + by apply (RatingsFacts.py_max_ge (map rating (r0 :: df))).
Qed.

Lemma normalize_increasing (lo hi a b : R) :
  lo < hi -> (a < b <-> normalize lo hi a < normalize lo hi b).
Proof.
  intros Hlt. unfold normalize, Rdiv.
  assert (Hinv : 0 < / (hi - lo)) by (apply Rinv_0_lt_compat; lra).
  split; intros H.
  - apply Rmult_lt_compat_r; lra.
  - apply Rmult_lt_reg_r in H; lra.
Qed.

(** Normalising keeps the order of the ratings: of two ratings the higher
    one gets the higher target, and equal targets come from equal
    ratings. *)
Theorem normalize_keeps_the_order (lo hi a b : R) :
  lo < hi ->
  (a < b <-> normalize lo hi a < normalize lo hi b) /\
  (normalize lo hi a = normalize lo hi b -> a = b).
Proof.
  intros Hlt. split; [by apply normalize_increasing|].
  intros Heq.
  destruct (Rtotal_order a b) as [H|[H|H]]; [|exact H|];
    apply (normalize_increasing lo hi) in H; try exact Hlt; lra.
Qed.

Lemma normalize_keeps_the_order_witness :
  (3 < 4 <-> normalize 1 5 3 < normalize 1 5 4) /\
  (normalize 1 5 3 = normalize 1 5 4 -> 3 = 4).
Proof.
  apply (normalize_keeps_the_order 1 5 3 4). lra.
Defined.

Section Split.

Variable sample : list Rating -> list Rating.

(** The target column has one entry for each row of the table, and when
    the ratings are not all the same the targets 0 and 1 both occur: the
    lowest rating is sent to 0 and the highest to 1. *)
Theorem targets_cover_the_unit_interval (df : list Rating) (lo hi : R) :
  Permutation (sample df) df ->
  py_min (map rating df) = Some lo ->
  py_max (map rating df) = Some hi ->
  lo < hi ->
  exists targets : list R,
    y sample df = Some targets /\
    length targets = length df /\
    0 ∈ targets /\ 1 ∈ targets.
Proof.
  intros Hperm Hmin Hmax Hlt.
  unfold y. rewrite Hmin, Hmax. simpl. eexists. split; [reflexivity|].
  split; [by rewrite length_map, (Permutation_length Hperm)|].
  assert (Hlo : lo ∈ map rating df).
  { destruct (map rating df) as [|x l]; [discriminate|].
    injection Hmin as <-. apply TrainingFacts.fold_min_attained. }
  assert (Hhi : hi ∈ map rating df).
  { destruct (map rating df) as [|x l]; [discriminate|].
    injection Hmax as <-. apply TrainingFacts.fold_max_attained. }
  apply list_elem_of_fmap in Hlo as (r1 & Hr1 & Hin1).
  apply list_elem_of_fmap in Hhi as (r2 & Hr2 & Hin2).
  rewrite <- Hperm in Hin1, Hin2. split.
  - apply list_elem_of_fmap. exists r1. split; [|exact Hin1].
    unfold normalize. rewrite <- Hr1. field. lra.
  - apply list_elem_of_fmap. exists r2. split; [|exact Hin2].
    unfold normalize. rewrite <- Hr2. field. lra.
Qed.

Lemma x_valid (df : list Rating) :
  Permutation (sample df) df ->
  Forall (fun p => exists u m : nat,
            p = (Some u, Some m) /\
            (u < num_users df)%nat /\ (m < num_movies df)%nat)
         (x sample df).
Proof.
  intros Hperm. unfold x. apply Forall_fmap, Forall_forall.
  intros r Hr. simpl. rewrite Hperm in Hr.
  destruct (IndexFacts.encoded_ids df) as [Hu Hm].
  destruct (proj1 (Hu (userId r))) as (u & Hlu & Hltu); [by exists r|].
  destruct (proj1 (Hm (movieId r))) as (m & Hlm & Hltm); [by exists r|].
  exists u, m. by rewrite Hlu, Hlm.
Qed.

(** Every row of the training input [x] holds two indices, never a
    missing value: the user index is below [num_users] and the movie
    index below [num_movies]. *)
Theorem training_inputs_are_valid_pairs (df : list Rating) :
  Permutation (sample df) df ->
  Forall (fun p => exists u m : nat,
            p = (Some u, Some m) /\
            (u < num_users df)%nat /\ (m < num_movies df)%nat)
         (x sample df).
Proof. intros Hperm. exact (x_valid df Hperm). Qed.

(** A model built for the table never raises on rows of the training
    input: on any batch of such rows the forward evaluation returns one
    row for each row of the batch. *)
Theorem training_batches_never_raise
    (df : list Rating) (net : Recommender.RecommenderNet)
    (batch : list (nat * nat)) :
  built_for df net ->
  Permutation (sample df) df ->
  Forall (fun p => (Some p.1, Some p.2) ∈ x sample df) batch ->
  exists out : list (list R),
    (Recommender.call batch net).1 = Some out /\
    length out = length batch.
Proof.
  intros (Hwf & Hnu & Hnm & _) Hperm Hbatch.
  assert (Hvalid : Forall (valid_pair net) batch).
  { eapply Forall_impl; [exact Hbatch|]. intros p Hp. simpl in Hp.
    pose proof (x_valid df Hperm) as Hx. rewrite Forall_forall in Hx.
    destruct (Hx _ Hp) as (u & m & [= <- <-] & Hu & Hm).
    unfold valid_pair. rewrite Hnu, Hnm. by split. }
  eexists. split; [apply (BatchFacts.call_batch net batch Hwf Hvalid)|].
  by rewrite length_map.
Qed.

(** The split cuts [x] and [y] at the same row: the training part
    followed by the validation part is the whole, the training part has
    [9 * n / 10] rows (rounded down) of the [n] rows of the table, and
    the parts of [x] and [y] have the same lengths. *)
Theorem split_partitions_the_rows (df : list Rating) (targets : list R) :
  Permutation (sample df) df ->
  y sample df = Some targets ->
  x_train sample df ++ x_val sample df = x sample df /\
  length (x_train sample df) = (9 * length df / 10)%nat /\
  exists yt yv : list R,
    y_train sample df = Some yt /\ y_val sample df = Some yv /\
    yt ++ yv = targets /\
    length yt = length (x_train sample df) /\
    length yv = length (x_val sample df).
Proof.
  intros Hperm Hy.
  assert (Hlx : length (x sample df) = length df)
    by (unfold x; by rewrite length_map, (Permutation_length Hperm)).
  assert (Hly : length targets = length df).
  { unfold y in Hy.
    destruct (py_min (map rating df)); simpl in Hy; [|discriminate].
    destruct (py_max (map rating df)); simpl in Hy; [|discriminate].
    injection Hy as <-.
    by rewrite length_map, (Permutation_length Hperm). }
  assert (Hk : (train_indices sample df <= length df)%nat).
  { unfold train_indices. rewrite (Permutation_length Hperm).
    apply Nat.Div0.div_le_upper_bound. lia. }
  unfold x_train, x_val, y_train, y_val. rewrite Hy. simpl.
  split; [apply take_drop|]. split.
  - rewrite length_take, Hlx, Nat.min_l by exact Hk.
    unfold train_indices. by rewrite (Permutation_length Hperm).
  - eexists _, _. split; [reflexivity|]. split; [reflexivity|].
    split; [apply take_drop|].
    rewrite !length_take, !length_drop, Hlx, Hly. lia.
Qed.

End Split.

Lemma split_partitions_the_rows_witness :
  x_train (@rev Rating) Examples.df_3 ++ x_val (@rev Rating) Examples.df_3
    = x (@rev Rating) Examples.df_3 /\
  length (x_train (@rev Rating) Examples.df_3)
    = (9 * length Examples.df_3 / 10)%nat /\
  exists yt yv : list R,
    y_train (@rev Rating) Examples.df_3 = Some yt /\
    y_val (@rev Rating) Examples.df_3 = Some yv /\
    yt ++ yv = map (fun r => normalize (Rmin (Rmin 4 1) 5)
                                       (Rmax (Rmax 4 1) 5) (rating r))
                   (rev Examples.df_3) /\
    length yt = length (x_train (@rev Rating) Examples.df_3) /\
    length yv = length (x_val (@rev Rating) Examples.df_3).
Proof.
  apply (split_partitions_the_rows (@rev Rating) Examples.df_3).
  - symmetry. apply Permutation_rev.
  - reflexivity.
Defined.

Lemma targets_cover_the_unit_interval_witness :
  exists targets : list R,
    y (@rev Rating) Examples.df_3 = Some targets /\
    length targets = length Examples.df_3 /\
    0 ∈ targets /\ 1 ∈ targets.
Proof.
  apply (targets_cover_the_unit_interval (@rev Rating) Examples.df_3
           (Rmin (Rmin 4 1) 5) (Rmax (Rmax 4 1) 5)).
  - symmetry. apply Permutation_rev.
  - reflexivity.
  - reflexivity.
  - unfold Rmin, Rmax. repeat destruct Rle_dec; lra.
Defined.

Lemma training_inputs_are_valid_pairs_witness :
  Forall (fun p => exists u m : nat,
            p = (Some u, Some m) /\
            (u < num_users Examples.df_3)%nat /\
            (m < num_movies Examples.df_3)%nat)
         (x (@rev Rating) Examples.df_3).
Proof.
  apply (training_inputs_are_valid_pairs (@rev Rating) Examples.df_3).
  symmetry. apply Permutation_rev.
Defined.

Lemma training_batches_never_raise_witness :
  exists out : list (list R),
    (Recommender.call [(1%nat, 0%nat); (0%nat, 1%nat)]
                      MoreExamples.net_50).1 = Some out /\
    length out = length [(1%nat, 0%nat); (0%nat, 1%nat)].
Proof.
  apply (training_batches_never_raise (@rev Rating) Examples.df_3
           MoreExamples.net_50 [(1%nat, 0%nat); (0%nat, 1%nat)]).
  - exact RankingFacts.built_for_net_50.
  - symmetry. apply Permutation_rev.
  - repeat constructor; vm_compute; rewrite !elem_of_cons; tauto.
Defined.

End TrainingFacts.

(** ** Padding and the layers of the sentiment model *)

Module SequenceFacts.

Import Sentiment.

Lemma pad_sequence_formula (n : nat) (s : list nat) :
  pad_sequence n s
  = replicate (n - length s) O ++ drop (length s - n) s.
Proof.
  unfold pad_sequence. destruct (decide (n ≤ length s)%nat) as [Hle|Hgt].
  - by replace (n - length s)%nat with O by lia.
  - by replace (length s - n)%nat with O by lia.
Qed.

(** Padding keeps the end of a review: the result is the last [maxlen]
    tokens of the sequence, with zeros in front when the sequence is
    shorter; padding a padded sequence changes nothing. *)
Theorem pad_sequence_keeps_the_last_tokens (n : nat) (s : list nat) :
  pad_sequence n s
    = replicate (n - length s) O ++ drop (length s - n) s /\
  drop (length s - n) s `suffix_of` s /\
  pad_sequence n (pad_sequence n s) = pad_sequence n s.
Proof.
  split; [apply pad_sequence_formula|]. split; [apply suffix_drop|].
  rewrite (pad_sequence_formula n (pad_sequence n s)).
  rewrite SentimentFacts.length_pad_sequence, Nat.sub_diag. reflexivity.
Qed.

(** Padding a data set gives as many rows as it had reviews, each of
    length [maxlen] and with tokens below the bound the reviews keep. *)
Theorem padded_data_set_is_rectangular
    (n bound : nat) (x : list (list nat)) :
  (0 < bound)%nat ->
  Forall (Forall (fun t => (t < bound)%nat)) x ->
  length (pad_sequences n x) = length x /\
  Forall (fun r => length r = n /\ Forall (fun t => (t < bound)%nat) r)
         (pad_sequences n x).
Proof.
  intros Hb Hx. unfold pad_sequences. split; [apply length_map|].
  apply Forall_fmap. eapply Forall_impl; [exact Hx|].
  intros s Hs. simpl. split; [apply SentimentFacts.length_pad_sequence|].
  by apply SentimentFacts.pad_sequence_tokens.
Qed.

Lemma padded_data_set_is_rectangular_witness :
  length (pad_sequences 3 [[1%nat; 2%nat; 3%nat; 4%nat]; [5%nat]])
    = length [[1%nat; 2%nat; 3%nat; 4%nat]; [5%nat]] /\
  Forall (fun r => length r = 3%nat /\ Forall (fun t => (t < 6)%nat) r)
         (pad_sequences 3 [[1%nat; 2%nat; 3%nat; 4%nat]; [5%nat]]).
Proof.
  apply (padded_data_set_is_rectangular 3 6).
  - lia.
  - repeat constructor; lia.
Defined.

(** The model runs exactly on the sequences of one or more tokens that
    are all rows of the embedding table: a token outside the table raises
    in the embedding layer, a sequence without tokens in the recurrent
    layer; when the model runs, it returns one row for each position of
    the sequence. *)
Theorem model_runs_iff_nonempty_and_tokens_in_the_table
    (w : Weights) (inputs : list nat) :
  (is_Some (model w inputs) <->
   inputs <> [] /\
   Forall (fun t => (t < length (embeddings w))%nat) inputs) /\
  (forall out : list (list R),
     model w inputs = Some out -> length out = length inputs).
Proof.
  unfold model. split.
  - split.
    + intros [out Hout].
      destruct (mapM (fun i => embeddings w !! i) inputs) as [x|] eqn:Hx;
        [|discriminate].
      pose proof (length_mapM _ _ _ Hx) as Hlen.
      split.
      * intros ->. destruct x; [discriminate|]. simpl in Hlen. lia.
      * assert (His : is_Some (mapM (fun i => embeddings w !! i) inputs))
          by (by rewrite Hx).
        apply mapM_is_Some in His.
        eapply Forall_impl; [exact His|]. intros t Ht. simpl in Ht.
        by apply lookup_lt_is_Some.
    + intros [Hne Hall].
      destruct (SentimentFacts.embedding_lookup_total _ _ Hall)
        as (x & Hx & _).
      rewrite Hx. simpl.
      pose proof (length_mapM _ _ _ Hx) as Hlen.
      destruct x as [|x0 x]; [|by eexists].
      destruct inputs; [done|]. simpl in Hlen. lia.
  - intros out Hout.
    destruct (mapM (fun i => embeddings w !! i) inputs) as [x|] eqn:Hx;
      [|discriminate].
    simpl in Hout. destruct x as [|x0 x]; [discriminate|].
    simpl in Hout. injection Hout as <-.
    rewrite !length_map, SentimentFacts.length_bidirectional.
    symmetry. by eapply length_mapM.
Qed.

(** *** The recurrent layer *)

Lemma tanh_range (x : R) : -1 < tanh x < 1.
Proof.
  unfold tanh, sinh, cosh.
  pose proof (exp_pos x). pose proof (exp_pos (- x)).
  assert (Hc : 0 < (exp x + exp (- x)) / 2) by lra.
  split.
  - apply (Rmult_lt_reg_r ((exp x + exp (- x)) / 2)); [exact Hc|].
    unfold Rdiv at 2. rewrite Rmult_assoc, Rinv_l by lra. lra.
  - apply (Rmult_lt_reg_r ((exp x + exp (- x)) / 2)); [exact Hc|].
    unfold Rdiv at 1. rewrite Rmult_assoc, Rinv_l by lra. lra.
Qed.

Lemma gate_times_tanh_range (o c : list R) :
  Forall (fun v => -1 <= v <= 1)
         (vmul (map sigmoid o) (map tanh c)).
Proof.
  unfold vmul. revert c.
  induction o as [|a o IH]; intros [|b c]; simpl; constructor;
    [|apply IH].
  pose proof (sigmoid_range a). pose proof (tanh_range b). nra.
Qed.

Lemma lstm_step_shape (input_dim units : nat) (w : LSTMWeights)
    (st : list R * list R) (x : list R) :
  wf_lstm input_dim units w -> length st.2 = units ->
  length (lstm_step units w st x).1 = units /\
  length (lstm_step units w st x).2 = units.
Proof.
  intros ([_ HK] & [_ HU] & Hb) Hc. unfold lstm_step, vadd, vmul.
  cbn [fst snd].
  pose proof (SentimentFacts.length_vecmat _ x _ HK) as H1.
  pose proof (SentimentFacts.length_vecmat _ st.1 _ HU) as H2.
  repeat rewrite ?length_zip_with, ?length_map, ?length_take, ?length_drop.
  rewrite H1, H2, Hb, Hc. lia.
Qed.

Lemma lstm_from_rows (input_dim units : nat) (w : LSTMWeights)
    (st : list R * list R) (xs : list (list R)) :
  wf_lstm input_dim units w -> length st.2 = units ->
  Forall (fun h => length h = units /\ Forall (fun v => -1 <= v <= 1) h)
         (lstm_from units w st xs).
Proof.
  intros Hwf. revert st.
  induction xs as [|x xs IH]; intros st Hc; simpl; constructor.
  - split; [by apply (lstm_step_shape input_dim)|].
    unfold lstm_step. cbn [fst snd]. apply gate_times_tanh_range.
  - apply IH. by apply (lstm_step_shape input_dim).
Qed.

(** With weights of the declared shapes the bidirectional layer gives,
    for each position of its input, a row of [2 * units] entries (128 in
    the model), each between -1 and 1, the two bounds included. *)
Theorem bidirectional_rows_are_bounded
    (input_dim units : nat) (fw bw : LSTMWeights) (xs : list (list R)) :
  wf_lstm input_dim units fw -> wf_lstm input_dim units bw ->
  length (bidirectional units fw bw xs) = length xs /\
  Forall (fun h => length h = (2 * units)%nat /\
                   Forall (fun v => -1 <= v <= 1) h)
         (bidirectional units fw bw xs).
Proof.
  intros Hfw Hbw. split; [apply SentimentFacts.length_bidirectional|].
  unfold bidirectional, lstm.
  pose proof (lstm_from_rows input_dim units fw
                (replicate units 0, replicate units 0) xs Hfw
                (length_replicate _ _)) as HF.
  pose proof (lstm_from_rows input_dim units bw
                (replicate units 0, replicate units 0) (reverse xs) Hbw
                (length_replicate _ _)) as HB.
  apply Forall_reverse in HB.
  revert HB. generalize (reverse (lstm_from units bw
    (replicate units 0, replicate units 0) (reverse xs))).
  induction HF as [|h hs [Hl Hr] _ IH]; intros bs HB; simpl;
    [constructor|].
  destruct HB as [|b bs [Hbl Hbr] HB]; simpl; constructor.
  - split; [rewrite length_app; lia|by apply Forall_app].
  - by apply IH.
Qed.

Lemma bidirectional_rows_are_bounded_witness :
  length (bidirectional 64 Examples.zero_lstm Examples.zero_lstm
            [replicate 128 1; replicate 128 2]) = 2%nat /\
  Forall (fun h => length h = (2 * 64)%nat /\
                   Forall (fun v => -1 <= v <= 1) h)
         (bidirectional 64 Examples.zero_lstm Examples.zero_lstm
            [replicate 128 1; replicate 128 2]).
Proof.
  apply (bidirectional_rows_are_bounded 128 64).
  - exact SentimentFacts.wf_zero_lstm.
  - exact SentimentFacts.wf_zero_lstm.
Defined.

Lemma lstm_from_app (units : nat) (w : LSTMWeights) (st : list R * list R)
    (xs ys : list (list R)) :
  exists st' : list R * list R,
    lstm_from units w st (xs ++ ys)
    = lstm_from units w st xs ++ lstm_from units w st' ys.
Proof.
  revert st. induction xs as [|x xs IH]; intros st; simpl.
  - by exists st.
  - destruct (IH (lstm_step units w st x)) as [st' Hst'].
    exists st'. by rewrite Hst'.
Qed.

(** The forward pass is causal: the states it gives for a prefix of a
    sequence do not depend on the tokens that follow; and, read from the
    other end, the states of the backward pass for a suffix do not depend
    on the tokens before it. *)
Theorem recurrent_passes_are_causal
    (units : nat) (w : LSTMWeights) (xs ys : list (list R)) :
  take (length xs) (lstm units w (xs ++ ys)) = lstm units w xs /\
  drop (length xs) (reverse (lstm units w (reverse (xs ++ ys))))
    = reverse (lstm units w (reverse ys)).
Proof.
  unfold lstm. split.
  - destruct (lstm_from_app units w (replicate units 0, replicate units 0)
                xs ys) as [st' ->].
    rewrite take_app_length'; [reflexivity|].
    by rewrite SentimentFacts.length_lstm_from.
  - rewrite reverse_app.
    destruct (lstm_from_app units w (replicate units 0, replicate units 0)
                (reverse ys) (reverse xs)) as [st' ->].
    rewrite reverse_app, drop_app_length'; [reflexivity|].
    by rewrite length_reverse, SentimentFacts.length_lstm_from,
         length_reverse.
Qed.

End SequenceFacts.
